(** * career-vision: the Gemini service and the page

    A shallow embedding of services/geminiService.ts: [parseAnalysisText] and
    the two stages of [generateImageAndAnalysis], building the request
    ([composeRequest]) and handling the response ([interpret]); and of the
    page of App.tsx: its state, the handlers [handleImageUpload],
    [handleGenerate] and [handleResetAll], what is rendered, and the file name
    of [handleDownload].

    JavaScript strings are sequences of UTF-16 code units; a regular
    expression without the [u] flag matches code unit by code unit.  The
    embedding therefore works on lists of code units, and the two regular
    expressions of the source are kept as syntax trees run by a backtracking
    matcher in the style of the ECMAScript specification. *)

From Stdlib Require Import Strings.String Strings.Byte.
From Stdlib Require Import List NArith Bool Lia Arith.
Import ListNotations.

Set Implicit Arguments.

(** ** JavaScript strings *)

Module Js.

Definition code_unit := N.
Definition jsstring := list code_unit.

(** Source text of this file is UTF-8; [utf16_of_utf8] turns the bytes of a
    literal into the code units the JavaScript engine sees (a code point above
    U+FFFF becomes a surrogate pair). *)
Fixpoint utf16_of_utf8 (bs : list N) : jsstring :=
  match bs with
  | [] => []
  | b0 :: r0 =>
    if (b0 <? 128)%N then b0 :: utf16_of_utf8 r0
    else
      match r0 with
      | [] => []
      | b1 :: r1 =>
        if (b0 <? 224)%N then
          ((b0 - 192) * 64 + (b1 - 128))%N :: utf16_of_utf8 r1
        else
          match r1 with
          | [] => []
          | b2 :: r2 =>
            if (b0 <? 240)%N then
              ((b0 - 224) * 4096 + (b1 - 128) * 64 + (b2 - 128))%N
                :: utf16_of_utf8 r2
            else
              match r2 with
              | [] => []
              | b3 :: r3 =>
                let cp := ((b0 - 240) * 262144 + (b1 - 128) * 4096
                           + (b2 - 128) * 64 + (b3 - 128) - 65536)%N in
                (55296 + cp / 1024)%N :: (56320 + cp mod 1024)%N
                  :: utf16_of_utf8 r3
              end
          end
      end
  end.

Definition lit (s : string) : jsstring :=
  utf16_of_utf8 (map Byte.to_N (list_byte_of_string s)).

Definition eqb (a b : jsstring) : bool :=
  if list_eq_dec N.eq_dec a b then true else false.

(** Truthiness of a string value: only the empty string is falsy. *)
Definition truthy (s : jsstring) : bool :=
  match s with [] => false | _ :: _ => true end.

(** A value of type [string | undefined] (or [| null]) in a condition. *)
Definition truthy_opt (o : option jsstring) : bool :=
  match o with Some s => truthy s | None => false end.

Definition undefined_text : jsstring := Eval vm_compute in lit "undefined".

(** [${v}] in a template literal: an undefined value prints as its name. *)
Definition interpolate (o : option jsstring) : jsstring :=
  match o with
  | Some s => s
  | None => undefined_text
  end.

(** *** Character classes *)

(** ECMAScript LineTerminator: LF, CR, LS, PS. *)
Definition is_line_terminator (c : code_unit) : bool :=
  ((c =? 10) || (c =? 13) || (c =? 8232) || (c =? 8233))%N.

(** ECMAScript WhiteSpace: TAB, VT, FF, SP, NBSP, ZWNBSP and the category Zs. *)
Definition is_white_space (c : code_unit) : bool :=
  ((c =? 9) || (c =? 11) || (c =? 12) || (c =? 32) || (c =? 160)
   || (c =? 5760) || ((8192 <=? c) && (c <=? 8202)) || (c =? 8239)
   || (c =? 8287) || (c =? 12288) || (c =? 65279))%N.

(** What [\s] matches and what [String.prototype.trim] strips. *)
Definition is_space (c : code_unit) : bool :=
  is_white_space c || is_line_terminator c.

(** Canonicalize of a regular expression with the [i] flag and without [u]:
    the code unit is upper-cased, except that a code unit of 128 or more is
    never mapped below 128.  The table is given on ASCII, where it is
    [a-z] to [A-Z]; elsewhere the identity stands in for it.  Both patterns
    of the source consist of ASCII characters and of Hangul syllables (which
    have no case and are no other character's upper case), and against those
    the comparison of canonical forms is the same under either table. *)
Definition canonicalize (c : code_unit) : code_unit :=
  if ((97 <=? c) && (c <=? 122))%N then (c - 32)%N else c.

(** *** String methods *)

Fixpoint trimStart (s : jsstring) : jsstring :=
  match s with
  | c :: s' => if is_space c then trimStart s' else s
  | [] => []
  end.

Definition trimEnd (s : jsstring) : jsstring := rev (trimStart (rev s)).

Definition trim (s : jsstring) : jsstring := trimEnd (trimStart s).

Fixpoint startsWith (p s : jsstring) : bool :=
  match p, s with
  | [], _ => true
  | a :: p', b :: s' => (a =? b)%N && startsWith p' s'
  | _ :: _, [] => false
  end.

(** [s.includes(p)] *)
Fixpoint includes (p s : jsstring) : bool :=
  startsWith p s ||
  match s with
  | [] => false
  | _ :: s' => includes p s'
  end.

(** [s.replace(p, r)] with a string pattern [p] and a replacement [r] free of
    [$]: the first occurrence of [p] is replaced. *)
Fixpoint replace (p r s : jsstring) : jsstring :=
  if startsWith p s then r ++ skipn (length p) s
  else
    match s with
    | [] => []
    | c :: s' => c :: replace p r s'
    end.

(** [s.split(sep)] for a separator of one code unit: the pieces between the
    separators, of which there is always at least one. *)
Fixpoint split (sep : code_unit) (s : jsstring) : list jsstring :=
  match s with
  | [] => [[]]
  | c :: s' =>
    if (c =? sep)%N then [] :: split sep s'
    else
      match split sep s' with
      | piece :: rest => (c :: piece) :: rest
      | [] => [[c]]
      end
  end.

End Js.

Import Js.

(** ** Regular expressions

    The fragment of the pattern language the source uses, and a backtracking
    matcher with continuations, after the matcher of the ECMAScript
    specification: a pattern is run on the rest of the input with the captures
    so far, and hands both to its continuation; an alternative or a quantifier
    tries its choices in order and keeps the first that lets the continuation
    succeed. *)

Module RegExp.

Inductive pattern : Type :=
| Empty                                  (* the empty pattern *)
| Char (c : code_unit)                   (* a pattern character *)
| Dot                                    (* .   *)
| Space                                  (* \s  *)
| Seq (r1 r2 : pattern)                  (* r1r2 *)
| Alt (r1 r2 : pattern)                  (* r1|r2 *)
| Star (greedy : bool) (r : pattern)     (* r* and r*? *)
| Group (n : nat) (r : pattern).         (* (r), the n-th capturing group *)

(** The flags [i] and [s]; neither pattern of the source has [g], [y], [m]
    or [u]. *)
Record flags := { ignoreCase : bool; dotAll : bool }.

Definition captures := list (nat * jsstring).

Fixpoint capture (n : nat) (c : captures) : option jsstring :=
  match c with
  | [] => None
  | (m, v) :: c' => if Nat.eqb m n then Some v else capture n c'
  end.

(** What was read between the input [s] and its suffix [s1]. *)
Definition consumed (s s1 : jsstring) : jsstring :=
  firstn (length s - length s1) s.

Definition char_matches (fl : flags) (p x : code_unit) : bool :=
  if ignoreCase fl then (canonicalize p =? canonicalize x)%N else (p =? x)%N.

Definition dot_matches (fl : flags) (x : code_unit) : bool :=
  dotAll fl || negb (is_line_terminator x).

Section Matcher.

Variable R : Type.
Variable fl : flags.

Definition continuation := jsstring -> captures -> option R.

(** One character against a predicate. *)
Definition one (ok : code_unit -> bool) (s : jsstring) (c : captures)
    (k : continuation) : option R :=
  match s with
  | x :: s' => if ok x then k s' c else None
  | [] => None
  end.

(** The loop of a quantifier [r*] ([greedy]) or [r*?], with [step] running
    [r] once.  An iteration that read nothing is given up (the specification's
    check against empty loops), so every iteration shortens the input, and a
    counter [n] that starts at the length of the input never runs out before
    the input does. *)
Fixpoint repeat (step : jsstring -> captures -> continuation -> option R)
    (greedy : bool) (k : continuation) (n : nat) (s : jsstring) (c : captures)
    {struct n} : option R :=
  let again (_ : unit) :=
    match n with
    | O => None
    | S n' =>
      step s c
        (fun s1 c1 =>
           if length s1 <? length s then repeat step greedy k n' s1 c1
           else None)
    end in
  if greedy then
    match again tt with
    | Some v => Some v
    | None => k s c
    end
  else
    match k s c with
    | Some v => Some v
    | None => again tt
    end.

(** [run r s c k]: match [r] at the start of [s]. *)
Fixpoint run (r : pattern) (s : jsstring) (c : captures) (k : continuation)
    {struct r} : option R :=
  match r with
  | Empty => k s c
  | Char p => one (char_matches fl p) s c k
  | Dot => one (dot_matches fl) s c k
  | Space => one is_space s c k
  | Seq r1 r2 => run r1 s c (fun s1 c1 => run r2 s1 c1 k)
  | Alt r1 r2 =>
    match run r1 s c k with
    | Some v => Some v
    | None => run r2 s c k
    end
  | Star greedy r1 => repeat (run r1) greedy k (length s) s c
  | Group n r1 =>
    run r1 s c (fun s1 c1 => k s1 ((n, consumed s s1) :: c1))
  end.

End Matcher.

(** The array a successful match returns: [index], element 0 and the
    captures. *)
Record match_array := {
  index : nat;
  whole : jsstring;
  groups : captures
}.

(** [RegExpBuiltinExec] without [g] and [y]: the match is tried at index 0,
    then 1, and so on up to the end of the input (included). *)
Fixpoint exec_from (fl : flags) (r : pattern) (i : nat) (s : jsstring)
    : option match_array :=
  match run fl r s [] (fun s1 c1 => Some (s1, c1)) with
  | Some (s1, c1) =>
    Some {| index := i; whole := consumed s s1; groups := c1 |}
  | None =>
    match s with
    | [] => None
    | _ :: s' => exec_from fl r (S i) s'
    end
  end.

(** [s.match(r)] for a pattern without the [g] flag. *)
Definition string_match (fl : flags) (r : pattern) (s : jsstring)
    : option match_array :=
  exec_from fl r 0 s.

(** A run of pattern characters. *)
Fixpoint word (w : jsstring) : pattern :=
  match w with
  | [] => Empty
  | c :: w' => Seq (Char c) (word w')
  end.

End RegExp.

Import RegExp.

(** ** The service *)

(** What a JavaScript function call ends in: a value, or a thrown value. *)
Inductive thrown : Type :=
| JsError (message : jsstring)   (* new Error(message) *)
| TypeError                      (* a method called on undefined; an Error too *)
| NotAnError.                    (* any thrown value that is no Error *)

Inductive outcome (A : Type) : Type :=
| Return (a : A)
| Throw (e : thrown).

Arguments Return {A} a.
Arguments Throw {A} e.

Definition bind {A B : Type} (x : outcome A) (f : A -> outcome B)
    : outcome B :=
  match x with
  | Return a => f a
  | Throw e => Throw e
  end.

Notation "x <- e1 ;; e2" := (bind e1 (fun x => e2))
  (at level 61, e1 at next level, right associativity).

(** The shapes of the @google/genai library the code reads.  Every field the
    library declares optional is an [option]. *)
Module GenAI.

Record Blob := { data : option jsstring; mimeType : option jsstring }.

Record Part := { inlineData : option Blob; text : option jsstring }.

Record Content := { parts : option (list Part) }.

Record SafetyRating := {
  category : option jsstring;
  blocked : option bool
}.

Record Candidate := {
  content : option Content;
  finishReason : option jsstring;
  safetyRatings : option (list SafetyRating)
}.

Record PromptFeedback := { blockReason : option jsstring }.

Record GenerateContentResponse := {
  candidates : option (list Candidate);
  promptFeedback : option PromptFeedback
}.

Inductive Modality : Type := IMAGE | TEXT.

Record GenerateContentParameters := {
  model : jsstring;
  contents : Content;
  responseModalities : list Modality
}.

End GenAI.

Import GenAI.

(** types.ts *)
Record GenerationResult := {
  image : jsstring;
  title : jsstring;
  description : jsstring
}.

(** The object [{ title, description }] that [parseAnalysisText] returns. *)
Module Analysis.
Record t := { title : jsstring; description : jsstring }.
End Analysis.

Definition dq : jsstring := [34%N].
Definition sq : jsstring := [39%N].
Definition nl : jsstring := [10%N].
Definition colon : code_unit := 58%N.
Definition comma : code_unit := 44%N.
Definition line_feed : code_unit := 10%N.

(** The pattern of [reasonMatch], piece by piece:
    [(?:Reason|이유)], [:], [\s*], then the group [( .* )]; flags [i] and [s]. *)
Definition reason_flags : flags := {| ignoreCase := true; dotAll := true |}.

Definition reason_words : pattern :=
  Eval vm_compute in Alt (word (lit "Reason")) (word (lit "이유")).

Definition reason_pattern : pattern :=
  Seq reason_words
    (Seq (Char colon)
       (Seq (Star true Space)
          (Group 1 (Star true Dot)))).

(** The pattern of [titleMatch], piece by piece:
    [(?:Job Title|직업명)], [:], [\s*], the group [( .*? )], then [\n];
    flag [i]. *)
Definition title_flags : flags := {| ignoreCase := true; dotAll := false |}.

Definition title_words : pattern :=
  Eval vm_compute in Alt (word (lit "Job Title")) (word (lit "직업명")).

Definition title_pattern : pattern :=
  Seq title_words
    (Seq (Char colon)
       (Seq (Star true Space)
          (Seq (Group 1 (Star false Dot))
             (Char line_feed)))).

Definition fallback_title : jsstring := Eval vm_compute in lit "분석 결과".

(** [m[n].trim()]: a group that took no part in the match is undefined, and
    calling a method on it throws. *)
Definition trimmed_group (n : nat) (m : match_array) : outcome jsstring :=
  match capture n (groups m) with
  | Some v => Return (trim v)
  | None => Throw TypeError
  end.

(** [reasonMatch ? reasonMatch[1].trim() : text], which both paths compute. *)
Definition reason_or_text (reasonMatch : option match_array) (text : jsstring)
    : outcome jsstring :=
  match reasonMatch with
  | Some m => trimmed_group 1 m
  | None => Return text
  end.

(** The path taken when [userPrompt] is undefined or empty. *)
Definition parse_unprompted (text : jsstring) : outcome Analysis.t :=
  let titleMatch := string_match title_flags title_pattern text in
  let reasonMatch := string_match reason_flags reason_pattern text in
  title <-
    match titleMatch with
    | Some m => trimmed_group 1 m
    | None => Return fallback_title
    end ;;
  description <- reason_or_text reasonMatch text ;;
  let description :=
    match reasonMatch, titleMatch with
    | None, Some m => trim (replace (whole m) [] text)
    | _, _ => description
    end in
  Return {| Analysis.title := title; Analysis.description := description |}.

Definition parseAnalysisText (text : jsstring) (userPrompt : option jsstring)
    : outcome Analysis.t :=
  match userPrompt with
  | Some ((_ :: _) as prompt) =>
    let reasonMatch := string_match reason_flags reason_pattern text in
    description <- reason_or_text reasonMatch text ;;
    Return {| Analysis.title := prompt; Analysis.description := description |}
  | Some [] | None => parse_unprompted text
  end.

(** *** Building the request *)

Definition textPrompt_for (prompt : jsstring) : jsstring :=
  lit "You are a creative AI image editor. Your task is to modify the provided user image to represent a " ++ dq ++ prompt ++ dq ++ lit " and then describe your changes." ++ nl
  ++ nl
  ++ lit "**CRITICAL INSTRUCTIONS:**" ++ nl
  ++ lit "1.  **GENERATE IMAGE FIRST:** You MUST generate a new image by editing the original to reflect the " ++ dq ++ prompt ++ dq ++ lit " career. This is your primary task. For example, for a 'developer', you could add a laptop with code." ++ nl
  ++ lit "2.  **GENERATE TEXT SECOND:** After generating the image, you MUST provide a description in Korean using this exact format:" ++ nl
  ++ lit "    " ++ dq ++ lit "이유: [당신이 생성한 이미지에서 " ++ sq ++ prompt ++ sq ++ lit " 직업을 표현하기 위해 무엇을 변경했는지 설명하세요.]" ++ dq ++ nl
  ++ nl
  ++ lit "**MANDATORY OUTPUT:** Your final response MUST contain BOTH the generated image AND the text description. Do not respond with only text.".

Definition textPrompt_open : jsstring :=
  lit "You are a creative AI image editor. Your task is to choose a suitable career for the person in the provided image, modify the image to represent that career, and then describe your changes." ++ nl
  ++ nl
  ++ lit "**CRITICAL INSTRUCTIONS:**" ++ nl
  ++ lit "1.  **GENERATE IMAGE FIRST:** You MUST generate a new image. First, analyze the person and choose a fitting career. Then, edit the original image to reflect that career. This is your primary task. For example, for a 'chef', you could add a kitchen background." ++ nl
  ++ lit "2.  **GENERATE TEXT SECOND:** After generating the image, you MUST provide a description in Korean using this exact format:" ++ nl
  ++ lit "    " ++ dq ++ lit "직업명: [당신이 선택한 직업]" ++ dq ++ nl
  ++ lit "    " ++ dq ++ lit "이유: [왜 이 직업을 선택했고, 당신이 생성한 이미지에서 무엇을 변경했는지 설명하세요.]" ++ dq ++ nl
  ++ nl
  ++ lit "**MANDATORY OUTPUT:** Your final response MUST contain BOTH the generated image AND the text description. Do not respond with only text.".

Definition model_name : jsstring :=
  Eval vm_compute in lit "gemini-2.5-flash-image-preview".

(** The argument of [ai.models.generateContent] (lines 312 to 349). *)
Definition composeRequest (imageBase64 mimeType prompt : jsstring)
    : GenerateContentParameters :=
  let imagePart :=
    {| inlineData :=
         Some {| data := nth_error (split comma imageBase64) 1;
                 mimeType := Some mimeType |};
       text := None |} in
  let textPrompt :=
    if truthy prompt then textPrompt_for prompt else textPrompt_open in
  let textPart := {| inlineData := None; text := Some textPrompt |} in
  {| model := model_name;
     contents := {| parts := Some [imagePart; textPart] |};
     responseModalities := [IMAGE; TEXT] |}.

(** *** Handling the response *)

Definition SAFETY : jsstring := Eval vm_compute in lit "SAFETY".
Definition STOP : jsstring := Eval vm_compute in lit "STOP".

(** The texts the error messages and the image string are put together
    from. *)
Definition data_scheme : jsstring := Eval vm_compute in lit "data:".
Definition base64_mark : jsstring := Eval vm_compute in lit ";base64,".

Definition blocked_message : jsstring :=
  Eval vm_compute in
    lit "The request was blocked, likely for safety reasons. Please try a different image or prompt.".
Definition blocked_before : jsstring :=
  Eval vm_compute in lit "Request blocked: ".
Definition blocked_after : jsstring :=
  Eval vm_compute in lit ". Please adjust your input.".
Definition safety_message : jsstring :=
  Eval vm_compute in
    lit "Generation failed due to safety concerns. The model cannot process this request. Please try a different image or prompt.".
Definition policy_before : jsstring :=
  Eval vm_compute in lit "Generation failed due to the safety policy for '".
Definition policy_after : jsstring :=
  Eval vm_compute in lit "'. Please try a different image or prompt.".
Definition stopped_before : jsstring :=
  Eval vm_compute in lit "Generation stopped unexpectedly: ".
Definition stopped_after : jsstring :=
  Eval vm_compute in lit ". Please try a different image or prompt.".
Definition neither_message : jsstring :=
  Eval vm_compute in
    lit "API did not return both an image and text. The model may have been unable to fulfill the request.".
Definition no_text_message : jsstring :=
  Eval vm_compute in
    lit "The API returned an image but no descriptive text. The model might have failed to generate the analysis part.".
Definition no_image_message : jsstring :=
  Eval vm_compute in
    lit "The API returned an analysis but no image. The model might have failed to generate the image part.".
Definition try_again : jsstring :=
  Eval vm_compute in
    lit " Please try again with a different image or prompt.".
Definition unknown_message : jsstring :=
  Eval vm_compute in lit "An unknown error occurred during the API call.".

(** The template "data:${mimeType};base64,${data}" of an image part. *)
Definition data_url (blob : Blob) : jsstring :=
  data_scheme ++ interpolate (mimeType blob) ++ base64_mark
  ++ interpolate (data blob).

(** The loop over [candidate.content.parts]: the state is the pair
    [(generatedImage, analysisText)], both [null] at first. *)
Definition scan_part (state : option jsstring * option jsstring) (part : Part)
    : option jsstring * option jsstring :=
  let (generatedImage, analysisText) := state in
  match inlineData part with
  | Some blob => (Some (data_url blob), analysisText)
  | None =>
    if truthy_opt (text part) then (generatedImage, text part) else state
  end.

Definition scan_parts (candidate : Candidate)
    : option jsstring * option jsstring :=
  match content candidate with
  | Some c =>
    match parts c with
    | Some ps => fold_left scan_part ps (None, None)
    | None => (None, None)
    end
  | None => (None, None)
  end.

(** [rating => rating.blocked] *)
Definition is_blocked (rating : SafetyRating) : bool :=
  match blocked rating with
  | Some b => b
  | None => false
  end.

(** [response.promptFeedback?.blockReason] *)
Definition blockReason_of (response : GenerateContentResponse)
    : option jsstring :=
  match promptFeedback response with
  | Some feedback => blockReason feedback
  | None => None
  end.

(** [finishReason === name] *)
Definition is_reason (finishReason : option jsstring) (name : jsstring)
    : bool :=
  match finishReason with
  | Some r => Js.eqb r name
  | None => false
  end.

(** Lines 373 to 405: the error thrown when the image or the text is
    missing.  The call of [console.error] is left out. *)
Definition incomplete (candidate : Candidate)
    (generatedImage analysisText : option jsstring) : thrown :=
  let finishReason := finishReason candidate in
  let safetyRatings := safetyRatings candidate in
  if is_reason finishReason SAFETY then JsError safety_message
  else
    let blockedRating :=
      match safetyRatings with
      | Some ratings => find is_blocked ratings
      | None => None
      end in
    match blockedRating with
    | Some rating =>
      JsError
        (policy_before ++ interpolate (category rating) ++ policy_after)
    | None =>
      if truthy_opt finishReason && negb (is_reason finishReason STOP) then
        JsError (stopped_before ++ interpolate finishReason ++ stopped_after)
      else
        let detailedError :=
          if truthy_opt generatedImage && negb (truthy_opt analysisText)
          then no_text_message
          else if negb (truthy_opt generatedImage) && truthy_opt analysisText
          then no_image_message
          else neither_message in
        JsError (detailedError ++ try_again)
    end.

(** Lines 351 to 414: from the response to the result, or to the error
    thrown. *)
Definition interpret (response : GenerateContentResponse) (prompt : jsstring)
    : outcome GenerationResult :=
  match candidates response with
  | None | Some [] =>
    let errorMessage :=
      match blockReason_of response with
      | Some ((_ :: _) as blockReason) =>
        blocked_before ++ blockReason ++ blocked_after
      | Some [] | None => blocked_message
      end in
    Throw (JsError errorMessage)
  | Some (candidate :: _) =>
    let (generatedImage, analysisText) := scan_parts candidate in
    match generatedImage, analysisText with
    | Some ((_ :: _) as imageUrl), Some ((_ :: _) as rawText) =>
      parsed <- parseAnalysisText rawText (Some prompt) ;;
      Return {| image := imageUrl;
                title := Analysis.title parsed;
                description := Analysis.description parsed |}
    | _, _ => Throw (incomplete candidate generatedImage analysisText)
    end
  end.

(** The [catch] clause: an Error is thrown again as it is, anything else is
    replaced. *)
Definition rethrow (e : thrown) : thrown :=
  match e with
  | NotAnError => JsError unknown_message
  | _ => e
  end.

Definition guarded {A : Type} (x : outcome A) : outcome A :=
  match x with
  | Return a => Return a
  | Throw e => Throw (rethrow e)
  end.

Section Service.

(** [ai.models.generateContent], the call to the remote model. *)
Variable generateContent : GenerateContentParameters
                           -> outcome GenerateContentResponse.

Definition generateImageAndAnalysis (imageBase64 mimeType prompt : jsstring)
    : outcome GenerationResult :=
  guarded
    (response <- generateContent (composeRequest imageBase64 mimeType prompt) ;;
     interpret response prompt).

End Service.

(** * Reading the two patterns

    The definitions below say, with list functions only, what the matcher
    does on the patterns of the source and what the claims speak of; the
    lemmas after them prove that this is what the matcher does. *)

Section Shapes.

Variable R : Type.
Variable fl : flags.

(** A quantified character class, longest run first: what [c*] does. *)
Fixpoint longest_first (ok : code_unit -> bool) (k : continuation R)
    (s : jsstring) (c : captures) : option R :=
  match s with
  | x :: s' =>
    if ok x then
      match longest_first ok k s' c with
      | Some v => Some v
      | None => k s c
      end
    else k s c
  | [] => k s c
  end.

(** A quantified character class, shortest run first: what [c*?] does. *)
Fixpoint shortest_first (ok : code_unit -> bool) (k : continuation R)
    (s : jsstring) (c : captures) : option R :=
  match k s c with
  | Some v => Some v
  | None =>
    match s with
    | x :: s' => if ok x then shortest_first ok k s' c else None
    | [] => None
    end
  end.

(** [word_at w s]: what is left of [s] after the pattern characters [w]. *)
Fixpoint word_at (w s : jsstring) : option jsstring :=
  match w, s with
  | [], _ => Some s
  | p :: w', x :: s' => if char_matches fl p x then word_at w' s' else None
  | _ :: _, [] => None
  end.

End Shapes.

(** The first suffix of [s], from the left, at which [at_start] gives a
    result. *)
Fixpoint first_match {A : Type} (at_start : jsstring -> option A)
    (s : jsstring) : option A :=
  match at_start s with
  | Some a => Some a
  | None =>
    match s with
    | [] => None
    | _ :: s' => first_match at_start s'
    end
  end.

Definition final : continuation (jsstring * captures) :=
  fun s1 c1 => Some (s1, c1).

(** Two optional results that are there together and then related. *)
Definition both {A B : Type} (P : A -> B -> Prop) (x : option A)
    (y : option B) : Prop :=
  match x, y with
  | Some a, Some b => P a b
  | None, None => True
  | _, _ => False
  end.

(** The rest of [s] after a marker at its start: one of the words [w1], [w2]
    and a colon. *)
Definition marker_at (fl : flags) (w1 w2 s : jsstring) : option jsstring :=
  match word_at fl (w1 ++ [colon]) s with
  | Some r => Some r
  | None => word_at fl (w2 ++ [colon]) s
  end.

Definition reason_en : jsstring := Eval vm_compute in lit "Reason".
Definition reason_ko : jsstring := Eval vm_compute in lit "이유".

(** The text after a reason marker at the start of [s]. *)
Definition reason_at : jsstring -> option jsstring :=
  marker_at reason_flags reason_en reason_ko.

(** The text up to the first line terminator, and the text from that
    terminator on. *)
Fixpoint line_of (s : jsstring) : jsstring :=
  match s with
  | x :: s' => if is_line_terminator x then [] else x :: line_of s'
  | [] => []
  end.

Fixpoint after_line (s : jsstring) : jsstring :=
  match s with
  | x :: s' => if is_line_terminator x then s else after_line s'
  | [] => []
  end.

(** A line that a line feed ends: the line, and the text after the feed. *)
Definition fed_line (s : jsstring) : option (jsstring * jsstring) :=
  match after_line s with
  | x :: rest => if (x =? line_feed)%N then Some (line_of s, rest) else None
  | [] => None
  end.

(** The text after the last line feed in the white space [r] starts with. *)
Fixpoint after_last_feed (r : jsstring) : option jsstring :=
  match r with
  | x :: r' =>
    if is_space x then
      match after_last_feed r' with
      | Some t => Some t
      | None => if (x =? line_feed)%N then Some r' else None
      end
    else None
  | [] => None
  end.

(** What the title pattern finds in the text [r] after a marker: the title
    and the text after the match. *)
Definition title_after (r : jsstring) : option (jsstring * jsstring) :=
  match fed_line (trimStart r) with
  | Some found => Some found
  | None =>
    match after_last_feed r with
    | Some rest => Some ([], rest)
    | None => None
    end
  end.

Definition job_en : jsstring := Eval vm_compute in lit "Job Title".
Definition job_ko : jsstring := Eval vm_compute in lit "직업명".

(** A match of the title pattern at the start of [s]: the text matched and
    the title in it. *)
Definition title_at (s : jsstring) : option (jsstring * jsstring) :=
  match marker_at title_flags job_en job_ko s with
  | Some r =>
    match title_after r with
    | Some (captured, rest) => Some (consumed s rest, captured)
    | None => None
    end
  | None => None
  end.

Definition title_body : pattern :=
  Seq (Star true Space) (Seq (Group 1 (Star false Dot)) (Char line_feed)).

(** Two strings that differ in the case of their letters at most. *)
Definition same_letters (a b : jsstring) : Prop :=
  map canonicalize a = map canonicalize b.

Definition reason_marker (mk : jsstring) : Prop :=
  same_letters mk (lit "Reason:") \/ same_letters mk (lit "이유:").

Definition title_marker (mk : jsstring) : Prop :=
  same_letters mk (lit "Job Title:") \/ same_letters mk (lit "직업명:").

(** [text] is [before ++ mk ++ rest] with [mk] a marker, and no marker of
    [text] starts further to the left. *)
Definition first_occurrence (marker : jsstring -> Prop)
    (text before mk rest : jsstring) : Prop :=
  text = before ++ mk ++ rest /\ marker mk /\
  forall before' mk' rest',
    text = before' ++ mk' ++ rest' -> marker mk' ->
    length before <= length before'.

Definition absent (marker : jsstring -> Prop) (text : jsstring) : Prop :=
  forall before mk rest, text = before ++ mk ++ rest -> ~ marker mk.

Definition title_marker_at : jsstring -> option jsstring :=
  marker_at title_flags job_en job_ko.

(** The description both paths start from. *)
Definition reason_description (text : jsstring) : jsstring :=
  match first_match reason_at text with
  | Some r => trim r
  | None => text
  end.

(** The result on the path without a prompt, in terms of the first place
    where the title pattern matches ([title_at]) and of the first reason
    marker. *)
Definition unprompted_analysis (text : jsstring) : Analysis.t :=
  {| Analysis.title :=
       match first_match title_at text with
       | Some (_, captured) => trim captured
       | None => fallback_title
       end;
     Analysis.description :=
       match first_match reason_at text, first_match title_at text with
       | Some r, _ => trim r
       | None, Some (matched, _) => trim (replace matched [] text)
       | None, None => text
       end |}.

(** The title as the specification words it: the text between the first
    title marker and the next line feed (the end of the text, if there is
    none), trimmed; the fallback without a marker. *)
Fixpoint up_to_feed (s : jsstring) : jsstring :=
  match s with
  | x :: s' => if (x =? line_feed)%N then [] else x :: up_to_feed s'
  | [] => []
  end.

Definition claimed_title (text : jsstring) : jsstring :=
  match first_match title_marker_at text with
  | Some r => trim (up_to_feed r)
  | None => fallback_title
  end.

Definition job_marker : jsstring := Eval vm_compute in lit "직업명:".
Definition why_marker : jsstring := Eval vm_compute in lit "이유:".

(** The text of the instruction part, the second part of the request. *)
Definition instruction_of (request : GenerateContentParameters)
    : option jsstring :=
  match parts (contents request) with
  | Some (_ :: part :: _) => text part
  | _ => None
  end.

(** The [data] field of the image part, the first part of the request. *)
Definition image_data_of (request : GenerateContentParameters)
    : option jsstring :=
  match parts (contents request) with
  | Some (part :: _) =>
    match inlineData part with
    | Some blob => data blob
    | None => None
    end
  | _ => None
  end.

(** The parts the loop goes through: none when the content or its parts are
    missing. *)
Definition candidate_parts (candidate : Candidate) : list Part :=
  match content candidate with
  | Some c =>
    match parts c with
    | Some ps => ps
    | None => []
    end
  | None => []
  end.

(** A part that gives the image, and a part that gives the text: a part with
    inline data never gives text, and an empty text is no text. *)
Definition carries_image (part : Part) : bool :=
  match inlineData part with
  | Some _ => true
  | None => false
  end.

Definition carries_text (part : Part) : bool :=
  negb (carries_image part) && truthy_opt (text part).

Definition has_image (candidate : Candidate) : bool :=
  existsb carries_image (candidate_parts candidate).

Definition has_text (candidate : Candidate) : bool :=
  existsb carries_text (candidate_parts candidate).

(** [blob] is the inline data of the last image part of [ps]. *)
Definition last_image (ps : list Part) (blob : Blob) : Prop :=
  exists before part after,
    ps = before ++ part :: after /\
    inlineData part = Some blob /\
    Forall (fun later => carries_image later = false) after.

(** [t] is the text of the last part of [ps] that gives text. *)
Definition last_text (ps : list Part) (t : jsstring) : Prop :=
  exists before part after,
    ps = before ++ part :: after /\
    carries_text part = true /\ text part = Some t /\
    Forall (fun later => carries_text later = false) after.

(** The kinds of failure the specification names, each with what its
    message is built from: the block reason of the response, the rating that
    blocked (none when the finish reason says so), the finish reason, and
    which of image and text were there. *)
Inductive failure : Type :=
| BlockedRequest (blockReason : option jsstring)
| SafetyBlocked (rating : option SafetyRating)
| AbnormalStop (finishReason : jsstring)
| IncompletePayload (hasImage hasText : bool).

Definition message_of (f : failure) : jsstring :=
  match f with
  | BlockedRequest (Some ((_ :: _) as blockReason)) =>
    blocked_before ++ blockReason ++ blocked_after
  | BlockedRequest _ => blocked_message
  | SafetyBlocked None => safety_message
  | SafetyBlocked (Some rating) =>
    policy_before ++ interpolate (category rating) ++ policy_after
  | AbnormalStop finishReason =>
    stopped_before ++ finishReason ++ stopped_after
  | IncompletePayload true false => no_text_message ++ try_again
  | IncompletePayload false true => no_image_message ++ try_again
  | IncompletePayload _ _ => neither_message ++ try_again
  end.

(** No rating of the candidate is blocked. *)
Definition unblocked (candidate : Candidate) : Prop :=
  forall ratings,
    safetyRatings candidate = Some ratings ->
    Forall (fun rating => is_blocked rating = false) ratings.

(** No rating of the candidate has its [blocked] field set to true. *)
Definition none_blocked (candidate : Candidate) : Prop :=
  forall ratings rating,
    safetyRatings candidate = Some ratings -> In rating ratings ->
    blocked rating <> Some true.

(** The finish reason is missing, empty or STOP. *)
Definition stopped (candidate : Candidate) : Prop :=
  finishReason candidate = None \/ finishReason candidate = Some [] \/
  finishReason candidate = Some STOP.

(** The result of [parseAnalysisText] for a prompt that is a string. *)
Definition analysis (text prompt : jsstring) : Analysis.t :=
  match prompt with
  | [] => unprompted_analysis text
  | _ :: _ =>
    {| Analysis.title := prompt;
       Analysis.description := reason_description text |}
  end.

(** A candidate with an image and no text, the finish reason SAFETY and a
    blocked rating. *)
Definition safety_candidate : Candidate :=
  {| content :=
       Some {| parts :=
         Some [ {| inlineData :=
                     Some {| data := Some (lit "AAAA");
                             mimeType := Some (lit "image/png") |};
                   text := None |} ] |};
     finishReason := Some SAFETY;
     safetyRatings :=
       Some [ {| category := Some (lit "HARM_CATEGORY_HARASSMENT");
                 blocked := Some true |} ] |}.

(** A candidate without parts whose ratings are, in this order: one that is
    not blocked, one without the field, and two that are blocked. *)
Definition rated_candidate (finish : option jsstring) : Candidate :=
  {| content := None;
     finishReason := finish;
     safetyRatings :=
       Some [ {| category := Some (lit "HARM_CATEGORY_HATE_SPEECH");
                 blocked := Some false |};
              {| category := Some (lit "HARM_CATEGORY_DANGEROUS_CONTENT");
                 blocked := None |};
              {| category := Some (lit "HARM_CATEGORY_HARASSMENT");
                 blocked := Some true |};
              {| category := Some (lit "HARM_CATEGORY_SEXUALLY_EXPLICIT");
                 blocked := Some true |} ] |}.

(** A candidate with text and no image, and no rating. *)
Definition text_only_candidate (finish : option jsstring) : Candidate :=
  {| content :=
       Some {| parts :=
         Some [ {| inlineData := None; text := Some (lit "a hat") |} ] |};
     finishReason := finish;
     safetyRatings := None |}.

(** An image part and a text part with the empty string. *)
Definition empty_text_candidate (finish : option jsstring) : Candidate :=
  {| content :=
       Some {| parts :=
         Some [ {| inlineData :=
                     Some {| data := Some (lit "AAAA");
                             mimeType := Some (lit "image/png") |};
                   text := None |};
                {| inlineData := None; text := Some [] |} ] |};
     finishReason := finish;
     safetyRatings := None |}.

Inductive kind : Type := Blocked | Safety | Abnormal | Incomplete.

Definition kind_of (f : failure) : kind :=
  match f with
  | BlockedRequest _ => Blocked
  | SafetyBlocked _ => Safety
  | AbnormalStop _ => Abnormal
  | IncompletePayload _ _ => Incomplete
  end.

(** The kind read off the first words of a message. *)
Definition kind_of_message (message : jsstring) : option kind :=
  if startsWith (lit "Request blocked: ") message
     || startsWith (lit "The request was blocked") message then Some Blocked
  else if startsWith (lit "Generation failed due to") message then Some Safety
  else if startsWith (lit "Generation stopped unexpectedly: ") message
  then Some Abnormal
  else if startsWith (lit "The API returned an ") message
          || startsWith (lit "API did not return") message then Some Incomplete
  else None.

(** * The page (App.tsx)

    The state of the [App] component and its handlers.  A handler is the
    list of the state updates it makes, in order; what it awaits (the file
    read, the call of the service) is given to it as an outcome.  The state
    after a handler is the state before it with the updates applied. *)

Module App.

(** types.ts *)
Inductive AppStatus : Type := IDLE | PROCESSING | SUCCESS | ERROR.

(** Of a [File] the code reads the media type only. *)
Record File := { type : jsstring }.

Record UploadedImage := { file : File; base64 : jsstring }.

(** The six [useState] cells. *)
Record state := {
  status : AppStatus;
  originalImage : option UploadedImage;
  prompt : jsstring;
  result : option GenerationResult;
  error : option jsstring;
  loadingMessage : jsstring
}.

Definition initial : state :=
  {| status := IDLE; originalImage := None; prompt := []; result := None;
     error := None; loadingMessage := [] |}.

Inductive update : Type :=
| setStatus (s : AppStatus)
| setOriginalImage (image : option UploadedImage)
| setPrompt (p : jsstring)
| setResult (r : option GenerationResult)
| setError (e : option jsstring)
| setLoadingMessage (m : jsstring).

Definition apply_update (st : state) (u : update) : state :=
  match u with
  | setStatus s =>
    {| status := s; originalImage := originalImage st; prompt := prompt st;
       result := result st; error := error st;
       loadingMessage := loadingMessage st |}
  | setOriginalImage image =>
    {| status := status st; originalImage := image; prompt := prompt st;
       result := result st; error := error st;
       loadingMessage := loadingMessage st |}
  | setPrompt p =>
    {| status := status st; originalImage := originalImage st; prompt := p;
       result := result st; error := error st;
       loadingMessage := loadingMessage st |}
  | setResult r =>
    {| status := status st; originalImage := originalImage st;
       prompt := prompt st; result := r; error := error st;
       loadingMessage := loadingMessage st |}
  | setError e =>
    {| status := status st; originalImage := originalImage st;
       prompt := prompt st; result := result st; error := e;
       loadingMessage := loadingMessage st |}
  | setLoadingMessage m =>
    {| status := status st; originalImage := originalImage st;
       prompt := prompt st; result := result st; error := error st;
       loadingMessage := m |}
  end.

Definition apply_updates (st : state) (us : list update) : state :=
  fold_left apply_update us st.

Definition preparing_message : jsstring :=
  Eval vm_compute in lit "이미지 준비 중...".
Definition read_failed_message : jsstring :=
  Eval vm_compute in lit "이미지 파일을 읽는데 실패했습니다.".
Definition transforming_after : jsstring :=
  Eval vm_compute in lit "(으)로 변신 중...".
Definition analysing_message : jsstring :=
  Eval vm_compute in lit "당신의 잠재력을 분석 중입니다...".
Definition unknown_error_message : jsstring :=
  Eval vm_compute in lit "알 수 없는 오류가 발생했습니다.".

(** [handleImageUpload(file)], with [read] the outcome of
    [await toBase64(file)]. *)
Definition handleImageUpload (uploaded : File) (read : outcome jsstring)
    : list update :=
  [setStatus PROCESSING; setLoadingMessage preparing_message; setError None]
  ++ match read with
     | Return encoded =>
       [setOriginalImage (Some {| file := uploaded; base64 := encoded |});
        setStatus IDLE]
     | Throw _ => [setError (Some read_failed_message); setStatus ERROR]
     end
  ++ [setLoadingMessage []].

Section Handlers.

(** The call to the remote model, as in [generateImageAndAnalysis]. *)
Variable generateContent : GenerateContentParameters
                           -> outcome GenerateContentResponse.

(** The [message] of a TypeError, which is the engine's own text. *)
Variable type_error_message : jsstring.

(** [e instanceof Error ? e.message : ...] *)
Definition errorMessage (e : thrown) : jsstring :=
  match e with
  | JsError message => message
  | TypeError => type_error_message
  | NotAnError => unknown_error_message
  end.

(** [handleGenerate()], called in the state [st]: it reads [originalImage]
    and [prompt]. *)
Definition handleGenerate (st : state) : list update :=
  match originalImage st with
  | None => []
  | Some uploaded =>
    [setStatus PROCESSING;
     setLoadingMessage
       (if truthy (prompt st) then dq ++ prompt st ++ dq ++ transforming_after
        else analysing_message);
     setError None;
     setResult None]
    ++ match generateImageAndAnalysis generateContent (base64 uploaded)
               (type (file uploaded)) (prompt st) with
       | Return apiResult => [setResult (Some apiResult); setStatus SUCCESS]
       | Throw e => [setError (Some (errorMessage e)); setStatus ERROR]
       end
    ++ [setLoadingMessage []]
  end.

Definition handleResetAll : list update :=
  [setStatus IDLE; setOriginalImage None; setPrompt []; setResult None;
   setError None].

(** What the user does: choosing a file (with the outcome of reading it),
    typing into the prompt field, and the buttons that generate and reset. *)
Inductive event : Type :=
| Upload (uploaded : File) (read : outcome jsstring)
| Typing (p : jsstring)
| Generate
| ResetAll.

Definition handle (st : state) (e : event) : state :=
  apply_updates st
    match e with
    | Upload uploaded read => handleImageUpload uploaded read
    | Typing p => [setPrompt p]
    | Generate => handleGenerate st
    | ResetAll => handleResetAll
    end.

Definition run_events (es : list event) : state := fold_left handle es initial.

End Handlers.

(** The panels of the page and the conditions under which [App] renders
    them. *)
Record view := {
  loader : bool;
  uploader : bool;
  form : bool;
  resultDisplay : bool;
  errorBox : bool
}.

Definition is_status (a b : AppStatus) : bool :=
  match a, b with
  | IDLE, IDLE | PROCESSING, PROCESSING | SUCCESS, SUCCESS | ERROR, ERROR =>
    true
  | _, _ => false
  end.

Definition present {A : Type} (o : option A) : bool :=
  match o with Some _ => true | None => false end.

Definition render (st : state) : view :=
  {| loader := is_status (status st) PROCESSING;
     uploader := is_status (status st) IDLE && negb (present (originalImage st));
     form := negb (is_status (status st) SUCCESS) && present (originalImage st);
     resultDisplay :=
       is_status (status st) SUCCESS && present (result st)
       && present (originalImage st);
     errorBox := is_status (status st) ERROR || truthy_opt (error st) |}.

(** The pattern of [handleDownload], [\s+] with the flag [g]; one or more is
    one and then any number. *)
Definition spaces : pattern := Seq Space (Star true Space).

Definition no_flags : flags := {| ignoreCase := false; dotAll := false |}.

(** [s.replace(r, by)] for a pattern [r] with the flag [g] and a replacement
    free of [$]: the matches are looked for from left to right, each search
    starting where the match before ended (one code unit further after an
    empty match).  Every step shortens the text, so a counter [n] above its
    length never runs out. *)
Fixpoint replace_matches (fl : flags) (r : pattern) (by_ : jsstring)
    (n : nat) (s : jsstring) : jsstring :=
  match n with
  | O => s
  | S n' =>
    match run fl r s [] (fun s1 c1 => Some (s1, c1)) with
    | Some (s1, _) =>
      if length s1 <? length s then
        by_ ++ replace_matches fl r by_ n' s1
      else
        match s with
        | [] => by_
        | x :: s' => by_ ++ x :: replace_matches fl r by_ n' s'
        end
    | None =>
      match s with
      | [] => []
      | x :: s' => x :: replace_matches fl r by_ n' s'
      end
    end
  end.

Definition replaceAll (fl : flags) (r : pattern) (by_ s : jsstring)
    : jsstring :=
  replace_matches fl r by_ (S (length s)) s.

Definition underscore : jsstring := [95%N].
Definition download_suffix : jsstring :=
  Eval vm_compute in lit "_career_vision.png".

(** [handleDownload] of [ResultDisplay]: the address and the file name of
    the link it clicks. *)
Definition handleDownload (shown : GenerationResult) : jsstring * jsstring :=
  (image shown,
   replaceAll no_flags spaces underscore (title shown) ++ download_suffix).

End App.

(** The white space of a text runs squeezed to one underscore each;
    [in_run] says that the character before was white space. *)
Fixpoint squeeze (in_run : bool) (s : jsstring) : jsstring :=
  match s with
  | [] => []
  | x :: s' =>
    if is_space x then
      if in_run then squeeze true s' else 95%N :: squeeze true s'
    else x :: squeeze false s'
  end.

(** The invariant of the page between two handlers. *)
Definition settled (st : App.state) : Prop :=
  App.status st <> App.PROCESSING /\
  App.loadingMessage st = [] /\
  (App.status st = App.SUCCESS ->
   App.result st <> None /\ App.originalImage st <> None) /\
  (App.status st = App.ERROR -> App.error st <> None) /\
  (App.status st = App.IDLE -> App.error st = None).

(** A response with an image part and the text "a hat". *)
Definition hat_response : GenerateContentResponse :=
  {| candidates :=
       Some [ {| content :=
                   Some {| parts :=
                     Some [ {| inlineData :=
                                 Some {| data := Some (lit "AAAA");
                                         mimeType := Some (lit "image/png") |};
                               text := None |};
                            {| inlineData := None;
                               text := Some (lit "a hat") |} ] |};
                 finishReason := Some STOP;
                 safetyRatings := None |} ];
     promptFeedback := None |}.

(** What [interpret] makes of [hat_response] for the prompt "Chef". *)
Definition hat_result : GenerationResult :=
  {| image := lit "data:image/png;base64,AAAA";
     title := lit "Chef";
     description := lit "a hat" |}.

(** ** Handlers that overlap

    [handleImageUpload] and [handleGenerate] are [async]: the handler runs
    up to its [await], the page is rendered, and the rest of the handler
    runs when the awaited promise settles.  In between the page takes the
    events of the controls it shows.  A page is therefore the six cells
    together with the promises that handlers wait for. *)

(** What a suspended handler waits for: [toBase64(file)], or
    [generateImageAndAnalysis] called with the image and the prompt of the
    render in which the handler was made. *)
Inductive pending : Type :=
| Reading (uploaded : App.File)
| Generating (uploaded : App.UploadedImage) (p : jsstring).

Record page := { cells : App.state; awaited : list pending }.

Definition start : page := {| cells := App.initial; awaited := [] |}.

(** [handleImageUpload] before its [await], and after it. *)
Definition upload_begins : list App.update :=
  [App.setStatus App.PROCESSING;
   App.setLoadingMessage App.preparing_message;
   App.setError None].

Definition upload_ends (uploaded : App.File) (read : outcome jsstring)
    : list App.update :=
  match read with
  | Return encoded =>
    [App.setOriginalImage
       (Some {| App.file := uploaded; App.base64 := encoded |});
     App.setStatus App.IDLE]
  | Throw _ =>
    [App.setError (Some App.read_failed_message); App.setStatus App.ERROR]
  end
  ++ [App.setLoadingMessage []].

(** [handleGenerate] before its [await], for the prompt [p]. *)
Definition generate_begins (p : jsstring) : list App.update :=
  [App.setStatus App.PROCESSING;
   App.setLoadingMessage
     (if truthy p then dq ++ p ++ dq ++ App.transforming_after
      else App.analysing_message);
   App.setError None;
   App.setResult None].

(** What the user does with a control of the page, and what happens when
    the [n]-th awaited promise settles ([read] is what [toBase64] gives).
    The download button changes no cell and is left out. *)
Inductive action : Type :=
| Pick (uploaded : App.File)
| Edit (p : jsstring)
| Press_generate
| Press_reset
| Read_done (n : nat) (read : outcome jsstring)
| Answer_done (n : nat).

(** The [n]-th of the awaited promises, and the others. *)
Fixpoint take (n : nat) (l : list pending) {struct l}
    : option (pending * list pending) :=
  match l, n with
  | [], _ => None
  | x :: r, O => Some (x, r)
  | x :: r, S n' =>
    match take n' r with
    | Some (y, r') => Some (y, x :: r')
    | None => None
    end
  end.

(** The controls as [App], [ImageUploader] and [ResultDisplay] render them:
    the file input is in the upload panel and disabled while processing;
    the prompt fields of the form and of the result are disabled while
    loading, and so is the generate button of the form; the button of the
    result is disabled while loading or without a prompt; the two reset
    buttons are never disabled.  The loader is drawn over the page and
    disables nothing of it.  A promise can settle when it is awaited. *)
Definition offered (pg : page) (a : action) : bool :=
  let st := cells pg in
  let shown := App.render st in
  let isLoading := App.is_status (App.status st) App.PROCESSING in
  match a with
  | Pick _ =>
    App.uploader shown && negb (App.is_status (App.status st) App.PROCESSING)
  | Edit _ => (App.form shown || App.resultDisplay shown) && negb isLoading
  | Press_generate =>
    App.form shown && negb isLoading
    || App.resultDisplay shown
       && negb (isLoading || negb (truthy (App.prompt st)))
  | Press_reset => App.form shown || App.resultDisplay shown
  | Read_done n _ =>
    match take n (awaited pg) with
    | Some (Reading _, _) => true
    | _ => false
    end
  | Answer_done n =>
    match take n (awaited pg) with
    | Some (Generating _ _, _) => true
    | _ => false
    end
  end.

Definition settles (a : action) : bool :=
  match a with
  | Read_done _ _ | Answer_done _ => true
  | _ => false
  end.

Definition nothing_awaited (pg : page) : bool :=
  match awaited pg with [] => true | _ :: _ => false end.

Section Interleaving.

Variable generateContent : GenerateContentParameters
                           -> outcome GenerateContentResponse.
Variable type_error_message : jsstring.

(** [handleGenerate] after its [await]. *)
Definition generate_ends (answer : outcome GenerationResult)
    : list App.update :=
  match answer with
  | Return apiResult =>
    [App.setResult (Some apiResult); App.setStatus App.SUCCESS]
  | Throw e =>
    [App.setError (Some (App.errorMessage type_error_message e));
     App.setStatus App.ERROR]
  end
  ++ [App.setLoadingMessage []].

(** What an action does to the page; there is no result when the promise
    that is to settle is not awaited. *)
Definition act (pg : page) (a : action) : option page :=
  let st := cells pg in
  match a with
  | Pick uploaded =>
    Some {| cells := App.apply_updates st upload_begins;
            awaited := Reading uploaded :: awaited pg |}
  | Edit p =>
    Some {| cells := App.apply_updates st [App.setPrompt p];
            awaited := awaited pg |}
  | Press_generate =>
    match App.originalImage st with
    | None => Some pg
    | Some uploaded =>
      Some {| cells := App.apply_updates st (generate_begins (App.prompt st));
              awaited := Generating uploaded (App.prompt st) :: awaited pg |}
    end
  | Press_reset =>
    Some {| cells := App.apply_updates st App.handleResetAll;
            awaited := awaited pg |}
  | Read_done n read =>
    match take n (awaited pg) with
    | Some (Reading uploaded, others) =>
      Some {| cells := App.apply_updates st (upload_ends uploaded read);
              awaited := others |}
    | _ => None
    end
  | Answer_done n =>
    match take n (awaited pg) with
    | Some (Generating uploaded p, others) =>
      Some {| cells :=
                App.apply_updates st
                  (generate_ends
                     (generateImageAndAnalysis generateContent
                        (App.base64 uploaded) (App.type (App.file uploaded))
                        p));
              awaited := others |}
    | _ => None
    end
  end.

(** The actions one after the other, whether the page offers them or not. *)
Fixpoint run_actions (pg : page) (actions : list action) : option page :=
  match actions with
  | [] => Some pg
  | a :: rest =>
    match act pg a with
    | Some pg' => run_actions pg' rest
    | None => None
    end
  end.

(** An action that the page offers. *)
Definition use (pg : page) (a : action) : option page :=
  if offered pg a then act pg a else None.

Fixpoint use_all (pg : page) (actions : list action) : option page :=
  match actions with
  | [] => Some pg
  | a :: rest =>
    match use pg a with
    | Some pg' => use_all pg' rest
    | None => None
    end
  end.

(** No handler is called while another one waits. *)
Fixpoint unhurried (pg : page) (actions : list action) : bool :=
  match actions with
  | [] => true
  | a :: rest =>
    (settles a || nothing_awaited pg)
    && match act pg a with
       | Some pg' => unhurried pg' rest
       | None => true
       end
  end.

End Interleaving.

(** What holds of the page however its handlers overlap. *)
Definition coherent (pg : page) : Prop :=
  (awaited pg = [] ->
   App.status (cells pg) <> App.PROCESSING /\
   App.loadingMessage (cells pg) = []) /\
  (App.status (cells pg) = App.SUCCESS -> App.result (cells pg) <> None) /\
  (App.status (cells pg) = App.ERROR -> App.error (cells pg) <> None).

(** What holds of the page as long as no handler is called while another
    waits: at most one promise is awaited, and the cells are ready for the
    rest of the handler that waits for it. *)
Definition calm (pg : page) : Prop :=
  match awaited pg with
  | [] => settled (cells pg)
  | [Reading _] => App.error (cells pg) = None
  | [Generating _ _] => App.originalImage (cells pg) <> None
  | _ => False
  end.

(** The page that shows nothing, and the one that shows the error only. *)
Definition blank : App.view :=
  {| App.loader := false; App.uploader := false; App.form := false;
     App.resultDisplay := false; App.errorBox := false |}.

Definition error_only : App.view :=
  {| App.loader := false; App.uploader := false; App.form := false;
     App.resultDisplay := false; App.errorBox := true |}.

(** * Proofs *)

Example lit_hangul : lit "이유:" = [51060; 50976; 58]%N.
Proof. reflexivity. Qed.

(** ** The matcher on the shapes the two patterns are made of *)

Section MatcherFacts.

Variable R : Type.
Variable fl : flags.

Lemma repeat_one_greedy ok (k : continuation R) n :
  forall s c, length s <= n ->
    repeat (one ok) true k n s c = longest_first ok k s c.
Proof.
  induction n as [|n IH]; intros s c Hn.
  - destruct s; [reflexivity | simpl in Hn; lia].
  - destruct s as [|x s']; [reflexivity|].
    simpl in Hn. cbn [repeat one longest_first].
    destruct (ok x); [|reflexivity].
    assert (Hlt : (length s' <? length (x :: s')) = true)
      by (apply Nat.ltb_lt; simpl; lia).
    rewrite Hlt, IH by lia. reflexivity.
Qed.

Lemma repeat_one_lazy ok (k : continuation R) n :
  forall s c, length s <= n ->
    repeat (one ok) false k n s c = shortest_first ok k s c.
Proof.
  induction n as [|n IH]; intros s c Hn.
  - destruct s; [|simpl in Hn; lia].
    cbn. destruct (k [] c); reflexivity.
  - destruct s as [|x s'].
    + cbn. destruct (k [] c); reflexivity.
    + simpl in Hn. cbn [repeat one shortest_first].
      destruct (k (x :: s') c); [reflexivity|].
      destruct (ok x); [|reflexivity].
      assert (Hlt : (length s' <? length (x :: s')) = true)
        by (apply Nat.ltb_lt; simpl; lia).
      rewrite Hlt, IH by lia. reflexivity.
Qed.

Lemma run_star_space (k : continuation R) s c :
  run fl (Star true Space) s c k = longest_first is_space k s c.
Proof. apply repeat_one_greedy. lia. Qed.

Lemma run_star_dot greedy (k : continuation R) s c :
  run fl (Star greedy Dot) s c k =
  if greedy then longest_first (dot_matches fl) k s c
  else shortest_first (dot_matches fl) k s c.
Proof.
  destruct greedy; [apply repeat_one_greedy | apply repeat_one_lazy]; lia.
Qed.

Lemma run_word w : forall s c (k : continuation R),
  run fl (word w) s c k =
  match word_at fl w s with
  | Some s' => k s' c
  | None => None
  end.
Proof.
  induction w as [|p w IH]; intros s c k; [reflexivity|].
  destruct s as [|x s']; [reflexivity|].
  cbn [word run one word_at].
  destruct (char_matches fl p x); [apply IH | reflexivity].
Qed.

Lemma longest_first_space (k : continuation R) c v : forall s,
  k (trimStart s) c = Some v -> longest_first is_space k s c = Some v.
Proof.
  induction s as [|x s IH]; intros H; [exact H|].
  cbn [longest_first]. cbn [trimStart] in H.
  destruct (is_space x); [|exact H].
  rewrite (IH H). reflexivity.
Qed.

Lemma longest_first_all ok (k : continuation R) c v :
  (forall x, ok x = true) ->
  forall s, k [] c = Some v -> longest_first ok k s c = Some v.
Proof.
  intros Hok s H. induction s as [|x s IH]; [exact H|].
  cbn [longest_first]. rewrite Hok, IH. reflexivity.
Qed.

End MatcherFacts.

Lemma run_seq R fl r1 r2 s c (k : continuation R) :
  run fl (Seq r1 r2) s c k = run fl r1 s c (fun s1 c1 => run fl r2 s1 c1 k).
Proof. reflexivity. Qed.

Lemma run_group R fl n r s c (k : continuation R) :
  run fl (Group n r) s c k =
  run fl r s c (fun s1 c1 => k s1 ((n, consumed s s1) :: c1)).
Proof. reflexivity. Qed.

Lemma run_char R fl p s c (k : continuation R) :
  run fl (Char p) s c k = one (char_matches fl p) s c k.
Proof. reflexivity. Qed.

(** [exec_from] finds the first place where the pattern matches; if [f]
    says where that is and what is found there, it says so for the search. *)
Lemma exec_from_first_match {B : Type} (P : match_array -> B -> Prop)
    (f : jsstring -> option B) fl r :
  (forall i s,
     both (fun '(s1, c1) b =>
             P {| index := i; whole := consumed s s1; groups := c1 |} b)
          (run fl r s [] final) (f s)) ->
  forall s i, both P (exec_from fl r i s) (first_match f s).
Proof.
  intros H. induction s as [|x s IH]; intros i; specialize (H i);
    cbn [exec_from first_match].
  - specialize (H []). fold final.
    destruct (run fl r [] [] final) as [[s1 c1]|], (f []); cbn in *;
      solve [exact H | contradiction | exact I].
  - specialize (H (x :: s)). fold final.
    destruct (run fl r (x :: s) [] final) as [[s1 c1]|], (f (x :: s));
      cbn in *; solve [exact H | contradiction | apply IH].
Qed.

Lemma word_at_app fl w1 w2 : forall s,
  word_at fl (w1 ++ w2) s =
  match word_at fl w1 s with
  | Some s1 => word_at fl w2 s1
  | None => None
  end.
Proof.
  induction w1 as [|p w1 IH]; intros s; [reflexivity|].
  destruct s as [|x s]; [reflexivity|].
  cbn [app word_at]. destruct (char_matches fl p x); [apply IH | reflexivity].
Qed.

(** Two words that differ in their first letter never match at one place. *)
Lemma word_at_exclusive fl p1 w1 p2 w2 s :
  ignoreCase fl = true ->
  canonicalize p1 <> canonicalize p2 ->
  word_at fl (p1 :: w1) s <> None -> word_at fl (p2 :: w2) s = None.
Proof.
  intros Hi Hne H. destruct s as [|x s]; [reflexivity|].
  cbn [word_at] in *. unfold char_matches in *. rewrite Hi in *.
  destruct (N.eqb_spec (canonicalize p1) (canonicalize x)) as [E1|]; [|congruence].
  destruct (N.eqb_spec (canonicalize p2) (canonicalize x)) as [E2|]; congruence.
Qed.

Lemma run_marker R fl p1 w1 p2 w2 body s c (k : continuation R) :
  ignoreCase fl = true ->
  canonicalize p1 <> canonicalize p2 ->
  run fl (Seq (Alt (word (p1 :: w1)) (word (p2 :: w2)))
            (Seq (Char colon) body)) s c k =
  match marker_at fl (p1 :: w1) (p2 :: w2) s with
  | Some r => run fl body r c k
  | None => None
  end.
Proof.
  intros Hi Hne. cbn [run]. rewrite !run_word. unfold marker_at.
  rewrite !word_at_app.
  pose proof (@word_at_exclusive fl p1 w1 p2 w2 s Hi Hne) as Hex.
  destruct (word_at fl (p1 :: w1) s) as [s1|].
  - rewrite Hex by discriminate.
    destruct s1 as [|x r]; [reflexivity|]. cbn [word_at one].
    destruct (char_matches fl colon x); [|reflexivity].
    destruct (run fl body r c k); reflexivity.
  - destruct (word_at fl (p2 :: w2) s) as [[|x r]|]; try reflexivity.
    cbn [word_at one]. destruct (char_matches fl colon x); reflexivity.
Qed.

Lemma consumed_all (s : jsstring) : consumed s [] = s.
Proof.
  unfold consumed. cbn [length]. rewrite Nat.sub_0_r. apply firstn_all.
Qed.

Lemma run_reason s :
  run reason_flags reason_pattern s [] final =
  match reason_at s with
  | Some r => Some ([], [(1, trimStart r)])
  | None => None
  end.
Proof.
  unfold reason_pattern, reason_at.
  change reason_words with (Alt (word reason_en) (word reason_ko)).
  unfold reason_en, reason_ko.
  rewrite run_marker by (try reflexivity; vm_compute; discriminate).
  destruct (marker_at _ _ _ s) as [r|]; [|reflexivity].
  rewrite run_seq, run_star_space.
  apply longest_first_space. rewrite run_group, run_star_dot.
  apply longest_first_all; [reflexivity|].
  unfold final. rewrite consumed_all. reflexivity.
Qed.

Lemma trimStart_idem s : trimStart (trimStart s) = trimStart s.
Proof.
  induction s as [|x s IH]; [reflexivity|].
  cbn [trimStart]. destruct (is_space x) eqn:E; [exact IH|].
  cbn [trimStart]. rewrite E. reflexivity.
Qed.

Lemma trim_trimStart s : trim (trimStart s) = trim s.
Proof. unfold trim. rewrite trimStart_idem. reflexivity. Qed.

Lemma reason_match_spec text :
  both (fun m r => trimmed_group 1 m = Return (trim r))
       (string_match reason_flags reason_pattern text)
       (first_match reason_at text).
Proof.
  apply exec_from_first_match. intros i s. rewrite run_reason.
  destruct (reason_at s) as [r|]; cbn; [|exact I].
  unfold trimmed_group. cbn. rewrite trim_trimStart. reflexivity.
Qed.

(** [reasonMatch ? reasonMatch[1].trim() : text] never throws: the group
    always takes part in a match. *)
Lemma reason_or_text_spec text :
  reason_or_text (string_match reason_flags reason_pattern text) text =
  Return match first_match reason_at text with
         | Some r => trim r
         | None => text
         end.
Proof.
  pose proof (reason_match_spec text) as H. unfold reason_or_text.
  destruct (string_match _ _ text), (first_match reason_at text);
    cbn in H; solve [exact H | contradiction | reflexivity].
Qed.

Lemma char_matches_feed x :
  char_matches title_flags line_feed x = (x =? line_feed)%N.
Proof.
  unfold char_matches, line_feed. cbn [ignoreCase title_flags].
  change (canonicalize 10%N) with 10%N. unfold canonicalize.
  destruct (N.leb_spec 97%N x); destruct (N.leb_spec x 122%N); cbn [andb];
    destruct (N.eqb_spec x 10%N);
    match goal with
    | |- N.eqb ?a ?b = _ => destruct (N.eqb_spec a b)
    end; try reflexivity; lia.
Qed.

Lemma dot_matches_title x :
  dot_matches title_flags x = negb (is_line_terminator x).
Proof. reflexivity. Qed.

Lemma consumed_app (p t : jsstring) : consumed (p ++ t) t = p.
Proof.
  unfold consumed. rewrite length_app, Nat.add_sub.
  rewrite firstn_app, firstn_all, Nat.sub_diag. cbn. apply app_nil_r.
Qed.

(** The group [( .*? )] followed by [\n], started at [s1]: the lazy
    quantifier stops at the first line feed, and no other line terminator may
    come before it. *)
Lemma lazy_line s1 c : forall t p,
  s1 = p ++ t ->
  shortest_first (dot_matches title_flags)
    (fun s2 c2 =>
       one (char_matches title_flags line_feed) s2
         ((1, consumed s1 s2) :: c2) final) t c =
  match after_line t with
  | x :: rest =>
    if (x =? line_feed)%N then Some (rest, (1, p ++ line_of t) :: c)
    else None
  | [] => None
  end.
Proof.
  induction t as [|x t IH]; intros p Hs; [reflexivity|].
  cbn [shortest_first one after_line line_of].
  rewrite char_matches_feed. unfold final at 1.
  destruct (N.eqb_spec x line_feed) as [->|Hx].
  - cbn. rewrite Hs, consumed_app, app_nil_r. reflexivity.
  - rewrite dot_matches_title.
    destruct (is_line_terminator x) eqn:Elt; cbn [negb].
    + apply N.eqb_neq in Hx. rewrite Hx. reflexivity.
    + rewrite (IH (p ++ [x])) by (rewrite <- app_assoc; exact Hs).
      rewrite <- app_assoc. reflexivity.
Qed.

Lemma run_title_line s1 c :
  run title_flags (Seq (Group 1 (Star false Dot)) (Char line_feed)) s1 c final =
  match fed_line s1 with
  | Some (captured, rest) => Some (rest, (1, captured) :: c)
  | None => None
  end.
Proof.
  rewrite run_seq, run_group, run_star_dot. cbn [run].
  rewrite (@lazy_line s1 c s1 []) by reflexivity.
  unfold fed_line. destruct (after_line s1) as [|x rest]; [reflexivity|].
  destruct (x =? line_feed)%N; reflexivity.
Qed.

Lemma fed_line_space x s :
  is_space x = true -> is_line_terminator x = false ->
  fed_line (x :: s) = None -> fed_line s = None.
Proof.
  unfold fed_line. cbn [after_line line_of]. intros _ ->.
  destruct (after_line s) as [|y rest]; [reflexivity|].
  destruct (y =? line_feed)%N; [discriminate | reflexivity].
Qed.

(** When no line feed ends the line after the white space, and the white
    space has no line feed either, none ends the line before it. *)
Lemma fed_line_none : forall s,
  fed_line (trimStart s) = None -> after_last_feed s = None ->
  fed_line s = None.
Proof.
  induction s as [|x s IH]; intros Ht Hf; [reflexivity|].
  cbn [trimStart after_last_feed] in *.
  destruct (is_space x) eqn:Esp; [|exact Ht].
  destruct (after_last_feed s) as [t|]; [discriminate|].
  destruct (N.eqb_spec x line_feed) as [->|Hx]; [discriminate|].
  specialize (IH Ht eq_refl).
  unfold fed_line in *. cbn [after_line line_of].
  destruct (is_line_terminator x).
  - apply N.eqb_neq in Hx. rewrite Hx. reflexivity.
  - destruct (after_line s) as [|y rest]; [reflexivity|].
    destruct (y =? line_feed)%N; [discriminate | reflexivity].
Qed.

Lemma run_title_body : forall r,
  run title_flags title_body r [] final =
  match title_after r with
  | Some (captured, rest) => Some (rest, [(1, captured)])
  | None => None
  end.
Proof.
  intros r. unfold title_body. rewrite run_seq, run_star_space.
  unfold title_after.
  induction r as [|x r IH].
  - cbn [longest_first trimStart after_last_feed].
    rewrite run_title_line. reflexivity.
  - cbn [longest_first trimStart after_last_feed].
    destruct (is_space x) eqn:Esp.
    + rewrite IH. clear IH.
      destruct (fed_line (trimStart r)) as [[captured rest]|] eqn:Et;
        [reflexivity|].
      destruct (after_last_feed r) as [t|] eqn:Ef; [reflexivity|].
      rewrite run_title_line.
      destruct (N.eqb_spec x line_feed) as [->|Hx]; [reflexivity|].
      pose proof (fed_line_none r Et Ef) as Hn.
      unfold fed_line in *. cbn [after_line line_of].
      destruct (is_line_terminator x).
      * apply N.eqb_neq in Hx. rewrite Hx. reflexivity.
      * destruct (after_line r) as [|y rest]; [reflexivity|].
        destruct (y =? line_feed)%N; [discriminate | reflexivity].
    + rewrite run_title_line.
      destruct (fed_line (x :: r)) as [[captured rest]|]; reflexivity.
Qed.

Lemma run_title s :
  run title_flags title_pattern s [] final =
  match marker_at title_flags job_en job_ko s with
  | Some r =>
    match title_after r with
    | Some (captured, rest) => Some (rest, [(1, captured)])
    | None => None
    end
  | None => None
  end.
Proof.
  unfold title_pattern.
  change title_words with (Alt (word job_en) (word job_ko)).
  unfold job_en, job_ko.
  rewrite run_marker by (try reflexivity; vm_compute; discriminate).
  destruct (marker_at _ _ _ s) as [r|]; [|reflexivity].
  apply run_title_body.
Qed.

Lemma title_match_spec text :
  both (fun m found =>
          whole m = fst found /\
          trimmed_group 1 m = Return (trim (snd found)))
       (string_match title_flags title_pattern text)
       (first_match title_at text).
Proof.
  apply exec_from_first_match. intros i s. rewrite run_title.
  unfold title_at.
  destruct (marker_at _ _ _ s) as [r|]; cbn; [|exact I].
  destruct (title_after r) as [[captured rest]|]; cbn; [|exact I].
  split; reflexivity.
Qed.
(** ** Markers, as the specification speaks of them *)

Lemma word_at_spec fl w : ignoreCase fl = true ->
  forall s r,
    word_at fl w s = Some r <-> exists mk, s = mk ++ r /\ same_letters mk w.
Proof.
  intros Hi. unfold same_letters.
  induction w as [|p w IH]; intros s r; cbn [word_at].
  - split.
    + intros [= ->]. exists []. split; reflexivity.
    + intros ([|x mk] & -> & H); [reflexivity | discriminate].
  - destruct s as [|x s].
    + split; [discriminate|].
      intros ([|y mk] & H1 & H2); discriminate.
    + unfold char_matches. rewrite Hi.
      destruct (N.eqb_spec (canonicalize p) (canonicalize x)) as [E|E].
      * rewrite IH. split.
        -- intros (mk & -> & H). exists (x :: mk). split; [reflexivity|].
           cbn [map]. rewrite H, E. reflexivity.
        -- intros ([|y mk] & H1 & H2); [discriminate|].
           injection H1 as <- ->. injection H2 as _ H2.
           exists mk. split; [reflexivity | exact H2].
      * split; [discriminate|].
        intros ([|y mk] & H1 & H2); [discriminate|].
        injection H1 as <- ->. injection H2 as H2 _. congruence.
Qed.

Lemma marker_at_spec fl p1 w1 p2 w2 :
  ignoreCase fl = true ->
  canonicalize p1 <> canonicalize p2 ->
  forall s r,
    marker_at fl (p1 :: w1) (p2 :: w2) s = Some r <->
    exists mk, s = mk ++ r /\
      (same_letters mk ((p1 :: w1) ++ [colon]) \/
       same_letters mk ((p2 :: w2) ++ [colon])).
Proof.
  intros Hi Hne s r. unfold marker_at. split.
  - destruct (word_at fl ((p1 :: w1) ++ [colon]) s) as [r1|] eqn:E1.
    + intros [= ->]. apply word_at_spec in E1; [|exact Hi].
      destruct E1 as (mk & -> & H). exists mk. auto.
    + intros E2. apply word_at_spec in E2; [|exact Hi].
      destruct E2 as (mk & -> & H). exists mk. auto.
  - intros (mk & -> & [H|H]).
    + assert (E : word_at fl ((p1 :: w1) ++ [colon]) (mk ++ r) = Some r)
        by (apply word_at_spec; [exact Hi | exists mk; auto]).
      rewrite E. reflexivity.
    + assert (E : word_at fl ((p2 :: w2) ++ [colon]) (mk ++ r) = Some r)
        by (apply word_at_spec; [exact Hi | exists mk; auto]).
      rewrite (@word_at_exclusive fl p2 (w2 ++ [colon]) p1 (w1 ++ [colon]));
        [exact E | exact Hi | congruence |].
      cbn [app] in E. rewrite E. discriminate.
Qed.

Lemma reason_at_spec s r :
  reason_at s = Some r <-> exists mk, s = mk ++ r /\ reason_marker mk.
Proof.
  unfold reason_at, reason_en, reason_ko.
  rewrite marker_at_spec by (try reflexivity; vm_compute; discriminate).
  reflexivity.
Qed.

Lemma title_marker_at_spec s r :
  title_marker_at s = Some r <-> exists mk, s = mk ++ r /\ title_marker mk.
Proof.
  unfold title_marker_at, job_en, job_ko.
  rewrite marker_at_spec by (try reflexivity; vm_compute; discriminate).
  reflexivity.
Qed.

Section FirstMatch.

Variable A : Type.
Variable f : jsstring -> option A.

Lemma first_match_intro : forall before s suffix a,
  s = before ++ suffix -> f suffix = Some a ->
  (forall before' suffix',
     s = before' ++ suffix' -> length before' < length before ->
     f suffix' = None) ->
  first_match f s = Some a.
Proof.
  induction before as [|x before IH]; intros s suffix a -> Ha Hmin.
  - cbn [app]. destruct suffix; cbn [first_match]; rewrite Ha; reflexivity.
  - cbn [app first_match].
    rewrite (Hmin [] (x :: before ++ suffix)) by (cbn; first [reflexivity | lia]).
    apply (IH _ suffix); [reflexivity | exact Ha |].
    intros before' suffix' E Hlt.
    apply (Hmin (x :: before') suffix'); cbn; [congruence | lia].
Qed.

Lemma first_match_none s :
  (forall before suffix, s = before ++ suffix -> f suffix = None) ->
  first_match f s = None.
Proof.
  induction s as [|x s IH]; intros H; cbn [first_match].
  - rewrite (H [] []); reflexivity.
  - rewrite (H [] (x :: s)) by reflexivity.
    apply IH. intros before suffix ->. apply (H (x :: before)). reflexivity.
Qed.

Lemma first_match_elim : forall s a,
  first_match f s = Some a ->
  exists before suffix,
    s = before ++ suffix /\ f suffix = Some a /\
    forall before' suffix',
      s = before' ++ suffix' -> length before' < length before ->
      f suffix' = None.
Proof.
  induction s as [|x s IH]; intros a; cbn [first_match].
  - destruct (f []) eqn:E; [|discriminate]. intros [= ->].
    exists [], []. repeat split; [exact E|]. cbn. intros; lia.
  - destruct (f (x :: s)) eqn:E.
    + intros [= ->]. exists [], (x :: s).
      repeat split; [exact E|]. cbn. intros; lia.
    + intros H. destruct (IH a H) as (before & suffix & -> & Ha & Hmin).
      exists (x :: before), suffix. repeat split; [exact Ha|].
      intros [|y before'] suffix' E' Hlt.
      * cbn in E'. subst suffix'. exact E.
      * cbn in E'. injection E' as <- E'.
        apply (Hmin before' suffix' E'). cbn in Hlt. lia.
Qed.

End FirstMatch.

(** The text after the first reason marker, found by scanning, is the text
    after the first occurrence of a marker. *)
Lemma first_reason text before mk rest :
  first_occurrence reason_marker text before mk rest ->
  first_match reason_at text = Some rest.
Proof.
  intros (E & Hmk & Hmin).
  apply (@first_match_intro _ reason_at before text (mk ++ rest)).
  - exact E.
  - apply reason_at_spec. exists mk. auto.
  - intros before' suffix' E' Hlt.
    destruct (reason_at suffix') as [r|] eqn:Er; [|reflexivity].
    apply reason_at_spec in Er. destruct Er as (mk' & -> & Hmk').
    specialize (Hmin before' mk' r E' Hmk'). lia.
Qed.

Lemma no_reason text :
  absent reason_marker text -> first_match reason_at text = None.
Proof.
  intros Habs. apply first_match_none. intros before suffix E.
  destruct (reason_at suffix) as [r|] eqn:Er; [|reflexivity].
  apply reason_at_spec in Er. destruct Er as (mk & -> & Hmk).
  destruct (Habs before mk r E Hmk).
Qed.

Lemma no_title text :
  absent title_marker text -> first_match title_at text = None.
Proof.
  intros Habs. apply first_match_none. intros before suffix E.
  unfold title_at. fold title_marker_at.
  destruct (title_marker_at suffix) as [r|] eqn:Er; [|reflexivity].
  apply title_marker_at_spec in Er. destruct Er as (mk & -> & Hmk).
  destruct (Habs before mk r E Hmk).
Qed.

Lemma first_match_none_elim (A : Type) (f : jsstring -> option A) : forall s,
  first_match f s = None ->
  forall before suffix, s = before ++ suffix -> f suffix = None.
Proof.
  induction s as [|x s IH]; cbn [first_match]; intros H before suffix E.
  - destruct before, suffix; try discriminate.
    destruct (f []); [discriminate | reflexivity].
  - destruct (f (x :: s)) eqn:Ex; [discriminate|].
    destruct before as [|y before]; cbn in E.
    + subst suffix. exact Ex.
    + injection E as _ E. exact (IH H before suffix E).
Qed.

Lemma reason_absent text :
  first_match reason_at text = None -> absent reason_marker text.
Proof.
  intros H before mk rest E Hmk.
  assert (Hs : reason_at (mk ++ rest) = Some rest)
    by (apply reason_at_spec; exists mk; auto).
  rewrite (first_match_none_elim _ H before (mk ++ rest) E) in Hs.
  discriminate.
Qed.

Lemma title_absent text :
  first_match title_marker_at text = None -> absent title_marker text.
Proof.
  intros H before mk rest E Hmk.
  assert (Hs : title_marker_at (mk ++ rest) = Some rest)
    by (apply title_marker_at_spec; exists mk; auto).
  rewrite (first_match_none_elim _ H before (mk ++ rest) E) in Hs.
  discriminate.
Qed.

(** ** What [parseAnalysisText] returns *)

Lemma parse_prompted text prompt :
  prompt <> [] ->
  parseAnalysisText text (Some prompt) =
  Return {| Analysis.title := prompt;
            Analysis.description := reason_description text |}.
Proof.
  intros Hp. destruct prompt as [|x prompt]; [congruence|].
  cbn [parseAnalysisText]. rewrite reason_or_text_spec. reflexivity.
Qed.

Lemma parse_unprompted_spec text :
  parse_unprompted text = Return (unprompted_analysis text).
Proof.
  unfold parse_unprompted, unprompted_analysis.
  pose proof (title_match_spec text) as Ht.
  pose proof (reason_match_spec text) as Hr.
  rewrite reason_or_text_spec.
  destruct (string_match title_flags title_pattern text) as [mt|],
           (first_match title_at text) as [[matched captured]|];
    cbn in Ht; try contradiction.
  - destruct Ht as [Hw Hg]. rewrite Hg. cbn [bind]. rewrite Hw.
    destruct (string_match reason_flags reason_pattern text),
             (first_match reason_at text); cbn in Hr; try contradiction;
      reflexivity.
  - cbn [bind].
    destruct (string_match reason_flags reason_pattern text),
             (first_match reason_at text); cbn in Hr; try contradiction;
      reflexivity.
Qed.

Lemma parse_no_prompt text :
  parseAnalysisText text None = Return (unprompted_analysis text).
Proof. apply parse_unprompted_spec. Qed.

Lemma trimStart_nonblank_app line t :
  trimStart line <> [] -> trimStart (line ++ t) = trimStart line ++ t.
Proof.
  induction line as [|x line IH]; intros H; [cbn in H; congruence|].
  cbn [trimStart app] in *. destruct (is_space x); [exact (IH H) | reflexivity].
Qed.

Lemma fed_line_app line post :
  Forall (fun x => is_line_terminator x = false) line ->
  fed_line (line ++ line_feed :: post) = Some (line, post).
Proof.
  unfold fed_line. induction 1 as [|x line Hx _ IH]; [reflexivity|].
  cbn [app after_line line_of]. rewrite Hx.
  destruct (after_line (line ++ line_feed :: post)) as [|y rest];
    [discriminate|].
  destruct (y =? line_feed)%N; [|discriminate].
  injection IH as -> ->. reflexivity.
Qed.

Lemma Forall_trimStart (P : code_unit -> Prop) s :
  Forall P s -> Forall P (trimStart s).
Proof.
  induction 1 as [|x s Hx Hs IH]; [constructor|].
  cbn [trimStart]. destruct (is_space x); [exact IH | constructor; assumption].
Qed.

Lemma trim_nonblank s : trim s <> [] -> trimStart s <> [].
Proof. unfold trim, trimEnd. intros H E. rewrite E in H. apply H. reflexivity. Qed.

(** The title pattern on a line of the shape the specification has in mind:
    after the marker, a line with something on it, ended by a line feed. *)
Lemma title_after_line line post :
  Forall (fun x => is_line_terminator x = false) line ->
  trim line <> [] ->
  title_after (line ++ line_feed :: post) = Some (trimStart line, post).
Proof.
  intros Hlt Hnb. unfold title_after.
  rewrite trimStart_nonblank_app by (apply trim_nonblank; exact Hnb).
  rewrite fed_line_app by (apply Forall_trimStart; exact Hlt).
  reflexivity.
Qed.

Lemma first_title text before mk rest captured after :
  first_occurrence title_marker text before mk rest ->
  title_after rest = Some (captured, after) ->
  first_match title_at text = Some (consumed (mk ++ rest) after, captured).
Proof.
  intros (E & Hmk & Hmin) Ht.
  apply (@first_match_intro _ title_at before text (mk ++ rest)).
  - exact E.
  - unfold title_at. fold title_marker_at.
    assert (Hm : title_marker_at (mk ++ rest) = Some rest)
      by (apply title_marker_at_spec; exists mk; auto).
    rewrite Hm, Ht. reflexivity.
  - intros before' suffix' E' Hlt. unfold title_at. fold title_marker_at.
    destruct (title_marker_at suffix') as [r|] eqn:Er; [|reflexivity].
    apply title_marker_at_spec in Er. destruct Er as (mk' & -> & Hmk').
    specialize (Hmin before' mk' r E' Hmk'). lia.
Qed.

(** ** The claims about [parseAnalysisText] *)

(** C3, as amended.  Without a prompt [parseAnalysisText] never throws and
    returns [unprompted_analysis text]: the title is taken at the first place
    where the title pattern matches, which asks for more than a marker (a
    line feed has to end the line after the white space that follows the
    marker, see [title_at]), and is the fallback when there is no such place;
    the description is the trimmed text after the first reason marker, else
    the text without the matched title stretch, trimmed, else the text as it
    is.  In the words of the claim: (2) where the first title marker is
    followed by a line that is not blank and that a line feed ends, the
    title is that line, trimmed; (3) the description is the trimmed text
    after the first reason marker; (4) a text with neither marker gives the
    fallback title and itself as description; (5, 6) the two examples of the
    specification. *)
Theorem parse_without_prompt :
  (forall text,
     parseAnalysisText text None = Return (unprompted_analysis text)) /\
  (forall text before mk line post,
     first_occurrence title_marker text before mk (line ++ line_feed :: post) ->
     Forall (fun x => is_line_terminator x = false) line ->
     trim line <> [] ->
     Analysis.title (unprompted_analysis text) = trim line) /\
  (forall text before mk rest,
     first_occurrence reason_marker text before mk rest ->
     Analysis.description (unprompted_analysis text) = trim rest) /\
  (forall text,
     absent title_marker text -> absent reason_marker text ->
     parseAnalysisText text None =
     Return {| Analysis.title := lit "분석 결과";
               Analysis.description := text |}) /\
  parseAnalysisText (lit "직업명: Chef" ++ nl ++ lit "이유: Added an apron.")
    None =
  Return {| Analysis.title := lit "Chef";
            Analysis.description := lit "Added an apron." |} /\
  parseAnalysisText (lit "some free text with no markers") None =
  Return {| Analysis.title := lit "분석 결과";
            Analysis.description := lit "some free text with no markers" |}.
Proof.
  split; [exact parse_no_prompt|].
  split.
  { intros text before mk line post Hocc Hlt Hnb.
    unfold unprompted_analysis. cbn [Analysis.title].
    rewrite (first_title Hocc (title_after_line post Hlt Hnb)).
    apply trim_trimStart. }
  split.
  { intros text before mk rest Hocc.
    unfold unprompted_analysis. cbn [Analysis.description].
    rewrite (first_reason Hocc). reflexivity. }
  split.
  { intros text Ht Hr. rewrite parse_no_prompt. unfold unprompted_analysis.
    rewrite (no_title Ht), (no_reason Hr). reflexivity. }
  split; vm_compute; reflexivity.
Qed.

(** The text "job title: Chef", line feed, "x", through the second part of
    [parse_without_prompt]: the marker is read without regard to case. *)
Lemma parse_without_prompt_witness :
  Analysis.title
    (unprompted_analysis (lit "job title: Chef" ++ nl ++ lit "x")) =
  trim (lit " Chef").
Proof.
  apply (proj1 (proj2 parse_without_prompt)
           (lit "job title: Chef" ++ nl ++ lit "x") [] (lit "job title:")
           (lit " Chef") (lit "x")).
  - split; [reflexivity|]. split; [left; reflexivity|].
    intros; cbn; lia.
  - repeat constructor.
  - vm_compute. discriminate.
Defined.

(** The claim C3 as it is stated fails: after the marker the pattern skips
    white space, line feeds included, before it takes the title, so in
    "직업명:", line feed, "Chef", line feed, the title is "Chef" and not the
    (empty) text between the marker and the next line feed; and in
    "직업명: Chef" no line feed ends the match, so the title is the fallback
    although the marker is there. *)
Lemma parse_without_prompt_title_counterexample :
  ~ (forall text,
       exists description,
         parseAnalysisText text None =
         Return {| Analysis.title := claimed_title text;
                   Analysis.description := description |}).
Proof.
  intros H. destruct (H (lit "직업명:" ++ nl ++ lit "Chef" ++ nl)) as [d Hd].
  vm_compute in Hd. discriminate Hd.
Qed.

(** C4, as amended.  With a prompt the title is the prompt as it is, and the
    description is the trimmed text after the first reason marker; without a
    reason marker it is the raw text as it is, not trimmed.  Title markers
    play no part. *)
Theorem parse_with_prompt (text prompt : jsstring) :
  prompt <> [] ->
  exists description,
    parseAnalysisText text (Some prompt) =
    Return {| Analysis.title := prompt;
              Analysis.description := description |} /\
    (forall before mk rest,
       first_occurrence reason_marker text before mk rest ->
       description = trim rest) /\
    (absent reason_marker text -> description = text).
Proof.
  intros Hp. exists (reason_description text).
  split; [exact (parse_prompted text Hp)|]. unfold reason_description. split.
  - intros before mk rest Hocc. rewrite (first_reason Hocc). reflexivity.
  - intros Habs. rewrite (no_reason Habs). reflexivity.
Qed.

(** The example of the specification, through [parse_with_prompt]. *)
Lemma parse_with_prompt_witness :
  parseAnalysisText (lit "이유: because space.") (Some (lit "Astronaut")) =
  Return {| Analysis.title := lit "Astronaut";
            Analysis.description := lit "because space." |}.
Proof.
  destruct (@parse_with_prompt (lit "이유: because space.") (lit "Astronaut"))
    as (d & Hd & Hfirst & _); [discriminate|].
  rewrite Hd.
  rewrite (Hfirst [] (lit "이유:") (lit " because space.")); [reflexivity|].
  split; [reflexivity|]. split; [right; reflexivity|].
  intros; cbn; lia.
Defined.

(** The claim C4 as it is stated fails where it says that the raw text is
    trimmed when there is no reason marker: for the text " hi " and the
    prompt "A" the description is " hi ". *)
Lemma parse_with_prompt_counterexample :
  ~ (forall text prompt,
       prompt <> [] -> absent reason_marker text ->
       parseAnalysisText text (Some prompt) =
       Return {| Analysis.title := prompt;
                 Analysis.description := trim text |}).
Proof.
  intros H.
  specialize (H (lit " hi ") (lit "A")).
  assert (Habs : absent reason_marker (lit " hi "))
    by (apply reason_absent; reflexivity).
  specialize (H ltac:(discriminate) Habs).
  vm_compute in H. discriminate H.
Qed.

(** ** Splitting and searching *)

Lemma split_nonempty sep s : split sep s <> [].
Proof.
  destruct s as [|c s]; cbn [split]; [discriminate|].
  destruct (c =? sep)%N; [discriminate|].
  destruct (split sep s); discriminate.
Qed.

Lemma split_without sep s : ~ In sep s -> split sep s = [s].
Proof.
  induction s as [|c s IH]; intros H; [reflexivity|].
  cbn [split]. destruct (N.eqb_spec c sep) as [->|_].
  - destruct H. left. reflexivity.
  - rewrite IH by (intros Hin; apply H; right; exact Hin). reflexivity.
Qed.

Lemma split_app sep a t :
  ~ In sep a -> split sep (a ++ sep :: t) = a :: split sep t.
Proof.
  induction a as [|c a IH]; intros H.
  - cbn [app split]. rewrite N.eqb_refl. reflexivity.
  - cbn [app split]. destruct (N.eqb_spec c sep) as [->|_].
    + destruct H. left. reflexivity.
    + rewrite IH by (intros Hin; apply H; right; exact Hin). reflexivity.
Qed.

Lemma startsWith_app_other m c : ~ In c m ->
  forall s t, startsWith m (s ++ c :: t) = startsWith m s.
Proof.
  induction m as [|a m IH]; intros H s t; [reflexivity|].
  assert (Ha : (a =? c)%N = false)
    by (apply N.eqb_neq; intros ->; apply H; left; reflexivity).
  destruct s as [|x s]; cbn [app startsWith].
  - rewrite Ha. reflexivity.
  - rewrite IH by (intros Hin; apply H; right; exact Hin). reflexivity.
Qed.

(** A character that is not in [m] cuts the search for [m] in two. *)
Lemma includes_app_other m c s t : ~ In c m ->
  includes m (s ++ c :: t) = includes m s || includes m t.
Proof.
  intros H. induction s as [|x s IH].
  - pose proof (@startsWith_app_other m c H [] t) as E.
    cbn [app includes] in *. rewrite E.
    destruct m; cbn [startsWith orb]; reflexivity.
  - pose proof (@startsWith_app_other m c H (x :: s) t) as E.
    cbn [app includes] in *. rewrite E, IH.
    rewrite orb_assoc. reflexivity.
Qed.

Lemma includes_cons_other m c t : ~ In c m -> m <> [] ->
  includes m (c :: t) = includes m t.
Proof.
  intros H Hm. pose proof (@includes_app_other m c [] t H) as E.
  cbn [app] in E. rewrite E.
  destruct m; [congruence | reflexivity].
Qed.

Lemma not_in_by_search (c : code_unit) s :
  existsb (N.eqb c) s = false -> ~ In c s.
Proof.
  intros H Hin. assert (E : existsb (N.eqb c) s = true).
  { apply existsb_exists. exists c. split; [exact Hin | apply N.eqb_refl]. }
  congruence.
Qed.

(** ** The request *)

Lemma Some_inj (A : Type) (a b : A) : Some a = Some b -> a = b.
Proof. intros [= ->]. reflexivity. Qed.

Lemma if_truthy (A : Type) (s : jsstring) (a b : A) :
  truthy s = true -> (if truthy s then a else b) = a.
Proof. intros ->. reflexivity. Qed.

Lemma instruction_of_composeRequest imageBase64 mimeType prompt :
  instruction_of (composeRequest imageBase64 mimeType prompt) =
  Some (if truthy prompt then textPrompt_for prompt else textPrompt_open).
Proof. reflexivity. Qed.

Ltac cut_search :=
  repeat first
    [ rewrite includes_app_other
        by (vm_compute; intuition discriminate)
    | rewrite includes_cons_other
        by (vm_compute; first [intuition discriminate | discriminate]) ].

Ltac search_literals :=
  repeat match goal with
         | |- context [includes ?m (lit ?s)] =>
           let v := eval vm_compute in (includes m (lit s)) in
           change (includes m (lit s)) with v
         end.

Lemma textPrompt_for_job prompt :
  includes job_marker (textPrompt_for prompt) = includes job_marker prompt.
Proof.
  unfold textPrompt_for, dq, sq, nl, job_marker. cbn [app].
  cut_search. search_literals. cbn [orb].
  rewrite ?orb_false_r.
  destruct (includes _ prompt); reflexivity.
Qed.

Lemma textPrompt_for_why prompt :
  includes why_marker (textPrompt_for prompt) = true.
Proof.
  unfold textPrompt_for, dq, sq, nl, why_marker. cbn [app].
  cut_search. search_literals. cbn [orb].
  rewrite ?orb_false_r, ?orb_true_r. reflexivity.
Qed.

(** C5, as amended.  The request has exactly two parts, the image part and
    then the instruction part.  The image part carries the media type as it
    was given and, as data, the second piece of the image string split at
    commas: for a data URL, which has one comma, all that follows the comma.
    The instruction always contains the marker "이유:"; without a prompt it
    contains "직업명:" as well, and with a prompt it contains "직업명:"
    exactly when the prompt itself does, since the prompt is copied into
    the instruction. *)
Theorem composeRequest_parts (imageBase64 mimeType prompt : jsstring) :
  exists instruction,
    parts (contents (composeRequest imageBase64 mimeType prompt)) =
    Some [ {| inlineData :=
                Some {| data := nth_error (split comma imageBase64) 1;
                        mimeType := Some mimeType |};
              text := None |};
           {| inlineData := None; text := Some instruction |} ] /\
    (forall header payload,
       imageBase64 = header ++ comma :: payload ->
       ~ In comma header -> ~ In comma payload ->
       nth_error (split comma imageBase64) 1 = Some payload) /\
    includes (lit "이유:") instruction = true /\
    includes (lit "직업명:") instruction =
    match prompt with
    | [] => true
    | _ :: _ => includes (lit "직업명:") prompt
    end.
Proof.
  unfold composeRequest. cbn [contents parts].
  eexists. split; [reflexivity|]. split.
  { intros header payload -> Hh Hp.
    rewrite (@split_app comma header payload Hh), (@split_without comma payload Hp).
    reflexivity. }
  destruct prompt as [|x prompt]; cbn [truthy].
  - split; vm_compute; reflexivity.
  - split; [apply textPrompt_for_why | apply textPrompt_for_job].
Qed.

(** A data URL and the prompt "Chef", through [composeRequest_parts]. *)
Lemma composeRequest_parts_witness :
  image_data_of
    (composeRequest (lit "data:image/png;base64,AAAA") (lit "image/png")
       (lit "Chef")) = Some (lit "AAAA").
Proof.
  destruct (composeRequest_parts (lit "data:image/png;base64,AAAA")
              (lit "image/png") (lit "Chef")) as (t & Hparts & Hdata & _).
  unfold image_data_of. rewrite Hparts. cbn [inlineData data].
  apply (Hdata (lit "data:image/png;base64") (lit "AAAA")).
  - reflexivity.
  - apply not_in_by_search. reflexivity.
  - apply not_in_by_search. reflexivity.
Defined.

(** The claim C5 as it is stated fails where it says that with a prompt the
    instruction contains the marker "이유:" only: the prompt "직업명:" is
    copied into the instruction, which then contains both markers. *)
Lemma composeRequest_markers_counterexample :
  ~ (forall imageBase64 mimeType prompt,
       prompt <> [] ->
       exists instruction,
         instruction_of (composeRequest imageBase64 mimeType prompt) =
         Some instruction /\
         includes (lit "이유:") instruction = true /\
         includes (lit "직업명:") instruction = false).
Proof.
  intros H.
  destruct (H [] [] (lit "직업명:")) as (t & Ht & _ & Hjob);
    [vm_compute; discriminate|].
  rewrite instruction_of_composeRequest in Ht.
  replace (lit "직업명:") with job_marker in * by (vm_compute; reflexivity).
  rewrite if_truthy in Ht by reflexivity.
  apply Some_inj in Ht. subst t.
  rewrite textPrompt_for_job in Hjob. vm_compute in Hjob. discriminate Hjob.
Qed.

(** C9.  The empty prompt is the absent prompt: the request then carries the
    instruction of the branch without a prompt, which names both markers,
    and [parseAnalysisText] takes the path without a prompt, as it does for
    [undefined]. *)
Theorem empty_prompt_is_no_prompt :
  (forall imageBase64 mimeType,
     instruction_of (composeRequest imageBase64 mimeType []) =
     Some textPrompt_open) /\
  includes (lit "직업명:") textPrompt_open = true /\
  includes (lit "이유:") textPrompt_open = true /\
  (forall text,
     parseAnalysisText text (Some []) = parseAnalysisText text None) /\
  (forall text,
     parseAnalysisText text (Some []) = Return (unprompted_analysis text)) /\
  (forall text,
     absent title_marker text ->
     exists description,
       parseAnalysisText text (Some []) =
       Return {| Analysis.title := lit "분석 결과";
                 Analysis.description := description |}).
Proof.
  split; [reflexivity|].
  split; [vm_compute; reflexivity|].
  split; [vm_compute; reflexivity|].
  split; [reflexivity|].
  split; [exact parse_no_prompt|].
  intros text Habs. eexists.
  change (parseAnalysisText text (Some [])) with (parseAnalysisText text None).
  rewrite parse_no_prompt. unfold unprompted_analysis.
  rewrite (no_title Habs). reflexivity.
Qed.

(** C10.  The data of the image part is the piece of the image string
    between its first and its second comma: all that follows the comma when
    there is one comma, the text up to the second comma when there are more
    (the rest is dropped), and nothing at all (the field is undefined, and
    nothing is thrown) when there is no comma. *)
Theorem image_data_between_commas (mimeType prompt : jsstring) :
  (forall header payload,
     ~ In comma header -> ~ In comma payload ->
     image_data_of
       (composeRequest (header ++ comma :: payload) mimeType prompt) =
     Some payload) /\
  (forall header payload rest,
     ~ In comma header -> ~ In comma payload ->
     image_data_of
       (composeRequest (header ++ comma :: payload ++ comma :: rest)
          mimeType prompt) = Some payload) /\
  (forall imageBase64,
     ~ In comma imageBase64 ->
     image_data_of (composeRequest imageBase64 mimeType prompt) = None) /\
  (forall imageBase64,
     image_data_of (composeRequest imageBase64 mimeType prompt) =
     nth_error (split comma imageBase64) 1).
Proof.
  unfold image_data_of, composeRequest. cbn [contents parts inlineData data].
  repeat split.
  - intros header payload Hh Hp.
    rewrite (@split_app comma header payload Hh), (@split_without comma payload Hp).
    reflexivity.
  - intros header payload rest Hh Hp.
    rewrite (@split_app comma header _ Hh), (@split_app comma payload _ Hp).
    reflexivity.
  - intros imageBase64 H. rewrite (@split_without comma imageBase64 H). reflexivity.
Qed.

(** Three image strings, with one comma, with two and with none, through
    [image_data_between_commas]. *)
Lemma image_data_between_commas_witness :
  image_data_of (composeRequest (lit "data:image/png;base64,AAAA") [] [])
  = Some (lit "AAAA") /\
  image_data_of (composeRequest (lit "a,b,c,d") [] []) = Some (lit "b") /\
  image_data_of (composeRequest (lit "AAAA") [] []) = None.
Proof.
  destruct (image_data_between_commas [] []) as (H1 & H2 & H3 & _).
  split; [|split].
  - apply (H1 (lit "data:image/png;base64") (lit "AAAA"));
      apply not_in_by_search; reflexivity.
  - apply (H2 (lit "a") (lit "b") (lit "c,d"));
      apply not_in_by_search; reflexivity.
  - apply H3. apply not_in_by_search. reflexivity.
Defined.

(** ** The parts of a candidate *)

Lemma scan_parts_fold candidate :
  scan_parts candidate = fold_left scan_part (candidate_parts candidate)
                           (None, None).
Proof.
  unfold scan_parts, candidate_parts.
  destruct (content candidate) as [c|]; [|reflexivity].
  destruct (parts c); reflexivity.
Qed.

Lemma scan_part_image state part blob :
  inlineData part = Some blob ->
  scan_part state part = (Some (data_url blob), snd state).
Proof.
  intros H. unfold scan_part. destruct state as [i t]. rewrite H. reflexivity.
Qed.

Lemma scan_part_text state part :
  carries_text part = true ->
  scan_part state part = (fst state, text part).
Proof.
  unfold carries_text, carries_image, scan_part. destruct state as [i t].
  destruct (inlineData part); [discriminate|]. cbn [negb andb].
  intros ->. reflexivity.
Qed.

Lemma scan_part_neither state part :
  carries_image part = false -> carries_text part = false ->
  scan_part state part = state.
Proof.
  unfold carries_text, carries_image, scan_part. destruct state as [i t].
  destruct (inlineData part); [discriminate|]. cbn [negb andb].
  intros _ ->. reflexivity.
Qed.

Lemma scan_without_image after : forall state,
  Forall (fun later => carries_image later = false) after ->
  fst (fold_left scan_part after state) = fst state.
Proof.
  induction after as [|p after IH]; intros state H; [reflexivity|].
  inversion H as [|? ? Hp Hafter]; subst. cbn [fold_left].
  rewrite IH by exact Hafter.
  destruct (carries_text p) eqn:Et.
  - rewrite scan_part_text by exact Et. reflexivity.
  - rewrite scan_part_neither by assumption. reflexivity.
Qed.

Lemma scan_without_text after : forall state,
  Forall (fun later => carries_text later = false) after ->
  snd (fold_left scan_part after state) = snd state.
Proof.
  induction after as [|p after IH]; intros state H; [reflexivity|].
  inversion H as [|? ? Hp Hafter]; subst. cbn [fold_left].
  rewrite IH by exact Hafter.
  destruct (inlineData p) as [blob|] eqn:Ei.
  - rewrite (scan_part_image state p Ei). reflexivity.
  - rewrite scan_part_neither; [reflexivity | | exact Hp].
    unfold carries_image. rewrite Ei. reflexivity.
Qed.

Lemma scan_last_image ps blob state :
  last_image ps blob ->
  fst (fold_left scan_part ps state) = Some (data_url blob).
Proof.
  intros (before & part & after & -> & Hi & Hafter).
  rewrite fold_left_app. cbn [fold_left].
  rewrite scan_without_image by exact Hafter.
  rewrite (scan_part_image _ part Hi). reflexivity.
Qed.

Lemma scan_last_text ps t state :
  last_text ps t ->
  snd (fold_left scan_part ps state) = Some t.
Proof.
  intros (before & part & after & -> & Hc & Ht & Hafter).
  rewrite fold_left_app. cbn [fold_left].
  rewrite scan_without_text by exact Hafter.
  rewrite scan_part_text by exact Hc. exact Ht.
Qed.

Lemma scan_image_found ps : forall u,
  fst (fold_left scan_part ps (None, None)) = Some u ->
  exists blob, last_image ps blob /\ u = data_url blob.
Proof.
  induction ps as [|p ps IH] using rev_ind; intros u H; [discriminate|].
  rewrite fold_left_app in H. cbn [fold_left] in H.
  destruct (inlineData p) as [blob|] eqn:Ei.
  - rewrite (scan_part_image _ p Ei) in H. injection H as <-.
    exists blob. split; [|reflexivity].
    exists ps, p, []. repeat split; [exact Ei | constructor].
  - assert (Hc : carries_image p = false)
      by (unfold carries_image; rewrite Ei; reflexivity).
    assert (Hf : fst (scan_part (fold_left scan_part ps (None, None)) p) =
                 fst (fold_left scan_part ps (None, None))).
    { destruct (carries_text p) eqn:Et.
      - rewrite scan_part_text by exact Et. reflexivity.
      - rewrite scan_part_neither by assumption. reflexivity. }
    rewrite Hf in H. destruct (IH u H) as (blob & Hl & ->).
    exists blob. split; [|reflexivity].
    destruct Hl as (before & part & after & -> & Hi & Hafter).
    exists before, part, (after ++ [p]). repeat split.
    + rewrite <- app_assoc. reflexivity.
    + exact Hi.
    + apply Forall_app. split; [exact Hafter | repeat constructor; exact Hc].
Qed.

Lemma scan_text_found ps : forall t,
  snd (fold_left scan_part ps (None, None)) = Some t ->
  last_text ps t.
Proof.
  induction ps as [|p ps IH] using rev_ind; intros t H; [discriminate|].
  rewrite fold_left_app in H. cbn [fold_left] in H.
  destruct (carries_text p) eqn:Et.
  - rewrite scan_part_text in H by exact Et. cbn [snd] in H.
    exists ps, p, []. repeat split; [exact Et | exact H | constructor].
  - assert (Hs : snd (scan_part (fold_left scan_part ps (None, None)) p) =
                 snd (fold_left scan_part ps (None, None))).
    { destruct (inlineData p) as [blob|] eqn:Ei.
      - rewrite (scan_part_image _ p Ei). reflexivity.
      - rewrite scan_part_neither; [reflexivity | | exact Et].
        unfold carries_image. rewrite Ei. reflexivity. }
    rewrite Hs in H.
    destruct (IH t H) as (before & part & after & -> & Hc & Ht & Hafter).
    exists before, part, (after ++ [p]). repeat split.
    + rewrite <- app_assoc. reflexivity.
    + exact Hc.
    + exact Ht.
    + apply Forall_app. split; [exact Hafter | repeat constructor; exact Et].
Qed.

Lemma data_url_truthy blob : truthy (data_url blob) = true.
Proof. reflexivity. Qed.

Lemma last_text_truthy ps t : last_text ps t -> truthy t = true.
Proof.
  intros (before & part & after & _ & Hc & Ht & _).
  unfold carries_text in Hc. rewrite Ht in Hc.
  apply andb_prop in Hc. exact (proj2 Hc).
Qed.

(** What the loop leaves in [generatedImage] and [analysisText] is truthy
    exactly when some part gives an image, some part gives text. *)
Lemma scan_truthy ps :
  truthy_opt (fst (fold_left scan_part ps (None, None))) =
    existsb carries_image ps /\
  truthy_opt (snd (fold_left scan_part ps (None, None))) =
    existsb carries_text ps.
Proof.
  induction ps as [|p ps [IHi IHt]] using rev_ind; [split; reflexivity|].
  rewrite fold_left_app, !existsb_app. cbn [fold_left existsb].
  rewrite !orb_false_r.
  destruct (inlineData p) as [blob|] eqn:Ei.
  - rewrite (scan_part_image _ p Ei). cbn [fst snd].
    unfold carries_text, carries_image. rewrite Ei. cbn [negb andb].
    rewrite !orb_false_r, orb_true_r. split; [reflexivity | exact IHt].
  - assert (Hc : carries_image p = false)
      by (unfold carries_image; rewrite Ei; reflexivity).
    rewrite Hc, orb_false_r.
    destruct (carries_text p) eqn:Et.
    + rewrite scan_part_text by exact Et. cbn [fst snd].
      rewrite orb_true_r. split; [exact IHi|].
      unfold carries_text in Et. rewrite Hc in Et. exact Et.
    + rewrite scan_part_neither by assumption.
      rewrite orb_false_r. split; assumption.
Qed.

Lemma scan_parts_truthy candidate :
  truthy_opt (fst (scan_parts candidate)) = has_image candidate /\
  truthy_opt (snd (scan_parts candidate)) = has_text candidate.
Proof. rewrite scan_parts_fold. apply scan_truthy. Qed.

(** ** The failures of the specification *)

Lemma eqb_eq a b : Js.eqb a b = true <-> a = b.
Proof.
  unfold Js.eqb. destruct (list_eq_dec N.eq_dec a b); split;
    congruence.
Qed.

Lemma is_reason_spec o name : is_reason o name = true <-> o = Some name.
Proof.
  unfold is_reason. destruct o as [r|]; [|split; discriminate].
  rewrite eqb_eq. split; congruence.
Qed.

Lemma is_reason_false o name : o <> Some name -> is_reason o name = false.
Proof.
  intros H. destruct (is_reason o name) eqn:E; [|reflexivity].
  apply is_reason_spec in E. congruence.
Qed.

Lemma find_first (A : Type) (f : A -> bool) before x after :
  Forall (fun y => f y = false) before -> f x = true ->
  find f (before ++ x :: after) = Some x.
Proof.
  induction 1 as [|y before Hy _ IH]; intros Hx; cbn [app find].
  - rewrite Hx. reflexivity.
  - rewrite Hy. exact (IH Hx).
Qed.

Lemma find_nothing (A : Type) (f : A -> bool) l :
  Forall (fun y => f y = false) l -> find f l = None.
Proof.
  induction 1 as [|y l Hy _ IH]; cbn [find]; [reflexivity|].
  rewrite Hy. exact IH.
Qed.

Section Incomplete.

Variable candidate : Candidate.
Variables generatedImage analysisText : option jsstring.

Lemma incomplete_safety :
  finishReason candidate = Some SAFETY ->
  incomplete candidate generatedImage analysisText =
  JsError (message_of (SafetyBlocked None)).
Proof.
  intros H. unfold incomplete.
  rewrite (proj2 (is_reason_spec _ _) H). reflexivity.
Qed.

Lemma incomplete_rating ratings before rating after :
  finishReason candidate <> Some SAFETY ->
  safetyRatings candidate = Some ratings ->
  ratings = before ++ rating :: after ->
  Forall (fun earlier => is_blocked earlier = false) before ->
  is_blocked rating = true ->
  incomplete candidate generatedImage analysisText =
  JsError (message_of (SafetyBlocked (Some rating))).
Proof.
  intros Hs Hr -> Hb Hx. unfold incomplete.
  rewrite (is_reason_false Hs), Hr.
  rewrite (@find_first _ is_blocked before rating after Hb Hx). reflexivity.
Qed.

Lemma incomplete_no_rating :
  unblocked candidate ->
  match safetyRatings candidate with
  | Some ratings => find is_blocked ratings
  | None => None
  end = None.
Proof.
  intros Hu. destruct (safetyRatings candidate) as [ratings|] eqn:E;
    [|reflexivity].
  apply find_nothing. apply Hu. exact E.
Qed.

Lemma incomplete_abnormal reason :
  finishReason candidate = Some reason ->
  reason <> [] -> reason <> SAFETY -> reason <> STOP ->
  unblocked candidate ->
  incomplete candidate generatedImage analysisText =
  JsError (message_of (AbnormalStop reason)).
Proof.
  intros Hf Hne Hs Hstop Hu. unfold incomplete.
  rewrite is_reason_false by congruence.
  rewrite (incomplete_no_rating Hu).
  rewrite (@is_reason_false _ STOP) by congruence.
  rewrite Hf. destruct reason; [congruence | reflexivity].
Qed.

Lemma incomplete_payload :
  stopped candidate -> unblocked candidate ->
  truthy_opt generatedImage && truthy_opt analysisText = false ->
  incomplete candidate generatedImage analysisText =
  JsError (message_of (IncompletePayload (truthy_opt generatedImage)
                         (truthy_opt analysisText))).
Proof.
  intros Hstop Hu Hmiss. unfold incomplete.
  rewrite (incomplete_no_rating Hu).
  assert (Hgate : is_reason (finishReason candidate) SAFETY = false /\
                  truthy_opt (finishReason candidate)
                  && negb (is_reason (finishReason candidate) STOP) = false).
  { destruct Hstop as [-> | [-> | ->]]; split; reflexivity. }
  destruct Hgate as [-> ->].
  destruct (truthy_opt generatedImage), (truthy_opt analysisText);
    try discriminate; reflexivity.
Qed.

End Incomplete.

(** [interpret] on a response with candidates: the first one decides. *)
Lemma interpret_first response prompt candidate rest :
  candidates response = Some (candidate :: rest) ->
  interpret response prompt =
  if truthy_opt (fst (scan_parts candidate))
     && truthy_opt (snd (scan_parts candidate))
  then
    parsed <- parseAnalysisText (interpolate (snd (scan_parts candidate)))
                (Some prompt) ;;
    Return {| image := interpolate (fst (scan_parts candidate));
              title := Analysis.title parsed;
              description := Analysis.description parsed |}
  else
    Throw (incomplete candidate (fst (scan_parts candidate))
             (snd (scan_parts candidate))).
Proof.
  intros H. unfold interpret. rewrite H.
  destruct (scan_parts candidate) as [[[|x u]|] [[|y t]|]]; reflexivity.
Qed.

(** [parseAnalysisText] never throws. *)
Lemma parse_total text prompt :
  parseAnalysisText text (Some prompt) = Return (analysis text prompt).
Proof.
  destruct prompt as [|x p].
  - apply parse_unprompted_spec.
  - apply parse_prompted. discriminate.
Qed.

Lemma interpret_missing response prompt candidate rest :
  candidates response = Some (candidate :: rest) ->
  has_image candidate && has_text candidate = false ->
  interpret response prompt =
  Throw (incomplete candidate (fst (scan_parts candidate))
           (snd (scan_parts candidate))).
Proof.
  intros Hc Hm. rewrite (@interpret_first response prompt candidate rest Hc).
  destruct (scan_parts_truthy candidate) as [-> ->]. rewrite Hm.
  reflexivity.
Qed.

Lemma interpret_payload response prompt candidate rest :
  candidates response = Some (candidate :: rest) ->
  has_image candidate && has_text candidate = false ->
  stopped candidate -> unblocked candidate ->
  interpret response prompt =
  Throw (JsError (message_of (IncompletePayload (has_image candidate)
                                (has_text candidate)))).
Proof.
  intros Hc Hm Hs Hu.
  rewrite (@interpret_missing response prompt candidate rest Hc Hm).
  rewrite incomplete_payload; try assumption.
  - destruct (scan_parts_truthy candidate) as [-> ->]. reflexivity.
  - destruct (scan_parts_truthy candidate) as [-> ->]. exact Hm.
Qed.

Lemma incomplete_is_error candidate generatedImage analysisText :
  exists message,
    incomplete candidate generatedImage analysisText = JsError message.
Proof.
  unfold incomplete.
  destruct (is_reason (finishReason candidate) SAFETY); [eexists; reflexivity|].
  destruct (match safetyRatings candidate with
            | Some ratings => find is_blocked ratings
            | None => None
            end); [eexists; reflexivity|].
  destruct (truthy_opt (finishReason candidate)
            && negb (is_reason (finishReason candidate) STOP));
    eexists; reflexivity.
Qed.

Lemma existsb_never (A : Type) (f : A -> bool) l :
  (forall x, In x l -> f x = false) -> existsb f l = false.
Proof.
  induction l as [|y l IH]; intros H; [reflexivity|].
  cbn [existsb]. rewrite (H y) by (left; reflexivity).
  apply IH. intros x Hx. apply H. right. exact Hx.
Qed.

Ltac literals :=
  repeat match goal with
         | |- context [lit ?s] =>
           let v := eval vm_compute in (lit s) in
           replace (lit s) with v by (vm_compute; reflexivity)
         end.

(** ** The claims about [interpret] *)

(** C1.  When the parts of the first candidate hold an image part and a part
    with a text that is not empty, [interpret] returns: the image is the
    string "data:<mimeType>;base64,<data>" of the last image part, and title
    and description are what [parseAnalysisText], which does not throw,
    makes of the text of the last part that gives text.  Conversely a result
    is returned only when such an image part and such a text part are
    there. *)
Theorem interpret_both_parts :
  (forall response prompt candidate rest blob t,
     candidates response = Some (candidate :: rest) ->
     last_image (candidate_parts candidate) blob ->
     last_text (candidate_parts candidate) t ->
     exists parsed,
       parseAnalysisText t (Some prompt) = Return parsed /\
       interpret response prompt =
       Return {| image := data_url blob;
                 title := Analysis.title parsed;
                 description := Analysis.description parsed |}) /\
  (forall response prompt result,
     interpret response prompt = Return result ->
     exists candidate rest blob t,
       candidates response = Some (candidate :: rest) /\
       last_image (candidate_parts candidate) blob /\
       last_text (candidate_parts candidate) t /\
       image result = data_url blob) /\
  (forall mime bytes,
     data_url {| data := Some bytes; mimeType := Some mime |} =
     lit "data:" ++ mime ++ lit ";base64," ++ bytes).
Proof.
  split; [|split].
  - intros response prompt candidate rest blob t Hc Hi Ht.
    exists (analysis t prompt). split; [apply parse_total|].
    rewrite (@interpret_first response prompt candidate rest Hc).
    rewrite scan_parts_fold.
    rewrite (@scan_last_image _ blob (None, None) Hi).
    rewrite (@scan_last_text _ t (None, None) Ht).
    cbn [truthy_opt interpolate].
    rewrite data_url_truthy, (last_text_truthy Ht). cbn [andb].
    rewrite parse_total. reflexivity.
  - intros response prompt result H.
    destruct (candidates response) as [[|candidate rest]|] eqn:Hc;
      try (unfold interpret in H; rewrite Hc in H; discriminate H).
    rewrite (@interpret_first response prompt candidate rest Hc) in H.
    rewrite scan_parts_fold in H.
    destruct (fst (fold_left scan_part (candidate_parts candidate)
                     (None, None))) as [u|] eqn:Eu; [|discriminate H].
    destruct (snd (fold_left scan_part (candidate_parts candidate)
                     (None, None))) as [t|] eqn:Et;
      [|cbn [truthy_opt] in H; rewrite andb_false_r in H; discriminate H].
    destruct (scan_image_found _ Eu) as (blob & Hi & ->).
    exists candidate, rest, blob, t.
    repeat split; [exact Hi | exact (scan_text_found _ Et) |].
    cbn [truthy_opt interpolate] in H.
    destruct (truthy (data_url blob) && truthy t); [|discriminate H].
    rewrite parse_total in H. cbn [bind] in H. injection H as <-.
    reflexivity.
  - intros mime bytes. unfold data_url. cbn [interpolate data mimeType].
    literals. reflexivity.
Qed.

(** One image part after one text part, through [interpret_both_parts]. *)
Lemma interpret_both_parts_witness :
  exists parsed,
    parseAnalysisText (lit "Reason: a hat") (Some (lit "Chef")) =
    Return parsed /\
    interpret
      {| candidates :=
           Some [ {| content :=
                       Some {| parts :=
                         Some [ {| inlineData := None;
                                   text := Some (lit "Reason: a hat") |};
                                {| inlineData :=
                                     Some {| data := Some (lit "AAAA");
                                             mimeType := Some (lit "image/png") |};
                                   text := None |} ] |};
                     finishReason := Some STOP;
                     safetyRatings := None |} ];
         promptFeedback := None |}
      (lit "Chef") =
    Return {| image :=
                data_url {| data := Some (lit "AAAA");
                            mimeType := Some (lit "image/png") |};
              title := Analysis.title parsed;
              description := Analysis.description parsed |}.
Proof.
  eapply (proj1 interpret_both_parts).
  - reflexivity.
  - eexists [_], _, []. repeat split. constructor.
  - eexists [], _, [_]. repeat split. repeat constructor.
Defined.

(** The callback of [find] holds of a rating exactly when its [blocked]
    field is true. *)
Lemma is_blocked_spec rating :
  is_blocked rating = true <-> blocked rating = Some true.
Proof.
  unfold is_blocked. destruct (blocked rating) as [[|]|];
    split; first [reflexivity | discriminate].
Qed.

Lemma is_blocked_false rating :
  blocked rating <> Some true -> is_blocked rating = false.
Proof.
  intros H. destruct (is_blocked rating) eqn:E; [|reflexivity].
  apply is_blocked_spec in E. contradiction.
Qed.

Lemma none_blocked_unblocked candidate :
  none_blocked candidate -> unblocked candidate.
Proof.
  intros H ratings E. apply Forall_forall. intros rating Hin.
  apply is_blocked_false. exact (H ratings rating E Hin).
Qed.

(** The three messages of an incomplete payload differ in their twenty-first
    character, the two messages of a safety block in their twenty-sixth. *)
Lemma payload_messages_differ a b a' b' :
  a && b = false -> a' && b' = false ->
  message_of (IncompletePayload a b) = message_of (IncompletePayload a' b') ->
  a = a' /\ b = b'.
Proof.
  intros H H' E. apply (f_equal (fun m => nth 20 m 0%N)) in E.
  destruct a, b, a', b'; try discriminate H; try discriminate H';
    first [split; reflexivity | vm_compute in E; discriminate E].
Qed.

Lemma safety_messages_differ rating :
  message_of (SafetyBlocked None) <> message_of (SafetyBlocked (Some rating)).
Proof.
  intros E. apply (f_equal (fun m => nth 25 m 0%N)) in E.
  vm_compute in E. discriminate E.
Qed.

(** C2.  When the image or the text is missing, the error is chosen in this
    order: a finish reason SAFETY gives the safety message that names no
    category, whatever the ratings are; otherwise the first rating whose
    [blocked] field is true gives the message that names its category;
    otherwise a finish reason that is there and is not STOP gives the
    message that names it; otherwise the message says which of image and
    text was missing.  The messages are those of the source; the one
    without a category is never one with a category, and the three about
    the payload are three different texts. *)
Theorem incomplete_classification response prompt candidate rest :
  candidates response = Some (candidate :: rest) ->
  has_image candidate && has_text candidate = false ->
  (finishReason candidate = Some SAFETY ->
   interpret response prompt =
   Throw (JsError (message_of (SafetyBlocked None)))) /\
  (finishReason candidate <> Some SAFETY ->
   forall ratings before rating after,
     safetyRatings candidate = Some ratings ->
     ratings = before ++ rating :: after ->
     Forall (fun earlier => blocked earlier <> Some true) before ->
     blocked rating = Some true ->
     interpret response prompt =
     Throw (JsError (message_of (SafetyBlocked (Some rating))))) /\
  (forall reason,
     finishReason candidate = Some reason ->
     reason <> [] -> reason <> SAFETY -> reason <> STOP ->
     none_blocked candidate ->
     interpret response prompt =
     Throw (JsError (message_of (AbnormalStop reason)))) /\
  (stopped candidate -> none_blocked candidate ->
   interpret response prompt =
   Throw (JsError (message_of (IncompletePayload (has_image candidate)
                                 (has_text candidate))))) /\
  message_of (SafetyBlocked None) =
  lit "Generation failed due to safety concerns. The model cannot process this request. Please try a different image or prompt." /\
  (forall rating,
     message_of (SafetyBlocked (Some rating)) =
     lit "Generation failed due to the safety policy for '"
     ++ interpolate (category rating)
     ++ lit "'. Please try a different image or prompt." /\
     message_of (SafetyBlocked (Some rating))
     <> message_of (SafetyBlocked None)) /\
  (forall reason,
     message_of (AbnormalStop reason) =
     lit "Generation stopped unexpectedly: " ++ reason
     ++ lit ". Please try a different image or prompt.") /\
  message_of (IncompletePayload true false) =
  lit "The API returned an image but no descriptive text. The model might have failed to generate the analysis part. Please try again with a different image or prompt." /\
  message_of (IncompletePayload false true) =
  lit "The API returned an analysis but no image. The model might have failed to generate the image part. Please try again with a different image or prompt." /\
  message_of (IncompletePayload false false) =
  lit "API did not return both an image and text. The model may have been unable to fulfill the request. Please try again with a different image or prompt." /\
  (forall a b a' b',
     a && b = false -> a' && b' = false ->
     message_of (IncompletePayload a b) = message_of (IncompletePayload a' b')
     -> a = a' /\ b = b').
Proof.
  intros Hc Hm.
  pose proof (@interpret_missing response prompt candidate rest Hc Hm) as E.
  repeat match goal with |- _ /\ _ => split end.
  - intros H. rewrite E, incomplete_safety by exact H. reflexivity.
  - intros Hs ratings before rating after Hr Er Hb Hx.
    assert (Hb' : Forall (fun earlier => is_blocked earlier = false) before).
    { apply Forall_forall. intros earlier Hin. apply is_blocked_false.
      exact (proj1 (Forall_forall _ _) Hb earlier Hin). }
    rewrite E, (@incomplete_rating candidate _ _ ratings before rating after
                  Hs Hr Er Hb' (proj2 (is_blocked_spec rating) Hx)).
    reflexivity.
  - intros reason Hf H1 H2 H3 Hu.
    rewrite E, (@incomplete_abnormal candidate _ _ reason Hf H1 H2 H3
                  (none_blocked_unblocked Hu)).
    reflexivity.
  - intros Hs Hu.
    exact (@interpret_payload response prompt candidate rest Hc Hm Hs
             (none_blocked_unblocked Hu)).
  - vm_compute. reflexivity.
  - intros rating. split.
    + cbn [message_of]. literals. reflexivity.
    + intros H. exact (safety_messages_differ (eq_sym H)).
  - intros reason. cbn [message_of]. literals. reflexivity.
  - vm_compute. reflexivity.
  - vm_compute. reflexivity.
  - vm_compute. reflexivity.
  - exact payload_messages_differ.
Qed.

Lemma text_only_none_blocked finish ratings rating :
  safetyRatings (text_only_candidate finish) = Some ratings ->
  In rating ratings -> blocked rating <> Some true.
Proof. discriminate. Qed.

(** The four cases, in their order: on [safety_candidate] the finish reason
    wins over the blocked rating; on [rated_candidate] the first of the two
    blocked ratings is named, after two that are not blocked; a finish
    reason MAX_TOKENS is named when no rating is blocked; and a text
    without image is reported as such when the finish reason is STOP. *)
Lemma incomplete_classification_witness :
  interpret {| candidates := Some [safety_candidate];
               promptFeedback := None |} [] =
  Throw (JsError (message_of (SafetyBlocked None))) /\
  interpret {| candidates := Some [rated_candidate (Some STOP)];
               promptFeedback := None |} [] =
  Throw (JsError
    (message_of
       (SafetyBlocked
          (Some {| category := Some (lit "HARM_CATEGORY_HARASSMENT");
                   blocked := Some true |})))) /\
  interpret {| candidates := Some [text_only_candidate (Some (lit "MAX_TOKENS"))];
               promptFeedback := None |} [] =
  Throw (JsError (message_of (AbnormalStop (lit "MAX_TOKENS")))) /\
  interpret {| candidates := Some [text_only_candidate (Some STOP)];
               promptFeedback := None |} [] =
  Throw (JsError (message_of (IncompletePayload false true))).
Proof.
  split; [|split; [|split]].
  - apply (proj1 (@incomplete_classification
                    {| candidates := Some [safety_candidate];
                       promptFeedback := None |} [] safety_candidate []
                    eq_refl eq_refl)).
    reflexivity.
  - apply (proj1 (proj2 (@incomplete_classification
                    {| candidates := Some [rated_candidate (Some STOP)];
                       promptFeedback := None |} []
                    (rated_candidate (Some STOP)) [] eq_refl eq_refl))
             ltac:(discriminate) _
             [ {| category := Some (lit "HARM_CATEGORY_HATE_SPEECH");
                  blocked := Some false |};
               {| category := Some (lit "HARM_CATEGORY_DANGEROUS_CONTENT");
                  blocked := None |} ]
             _
             [ {| category := Some (lit "HARM_CATEGORY_SEXUALLY_EXPLICIT");
                  blocked := Some true |} ]
             eq_refl eq_refl).
    + repeat constructor; discriminate.
    + reflexivity.
  - apply (proj1 (proj2 (proj2 (@incomplete_classification
                    {| candidates :=
                         Some [text_only_candidate (Some (lit "MAX_TOKENS"))];
                       promptFeedback := None |} []
                    (text_only_candidate (Some (lit "MAX_TOKENS"))) []
                    eq_refl eq_refl)))).
    + reflexivity.
    + vm_compute. discriminate.
    + vm_compute. discriminate.
    + vm_compute. discriminate.
    + exact (@text_only_none_blocked (Some (lit "MAX_TOKENS"))).
  - apply (proj1 (proj2 (proj2 (proj2 (@incomplete_classification
                    {| candidates := Some [text_only_candidate (Some STOP)];
                       promptFeedback := None |} []
                    (text_only_candidate (Some STOP)) []
                    eq_refl eq_refl))))).
    + right. right. reflexivity.
    + exact (@text_only_none_blocked (Some STOP)).
Defined.

(** C6.  A response without candidates, the list missing or empty, makes
    [interpret] throw: the message carries the block reason of the response
    when there is one, and is the general message about a blocked request
    otherwise. *)
Theorem interpret_no_candidates response prompt :
  candidates response = None \/ candidates response = Some [] ->
  interpret response prompt =
    Throw (JsError (message_of (BlockedRequest (blockReason_of response)))) /\
  (forall reason,
     blockReason_of response = Some reason -> reason <> [] ->
     message_of (BlockedRequest (blockReason_of response)) =
     lit "Request blocked: " ++ reason ++ lit ". Please adjust your input.") /\
  (blockReason_of response = None \/ blockReason_of response = Some [] ->
   message_of (BlockedRequest (blockReason_of response)) =
   lit "The request was blocked, likely for safety reasons. Please try a different image or prompt.").
Proof.
  intros Hc. split; [|split].
  - unfold interpret. destruct Hc as [-> | ->];
      destruct (blockReason_of response) as [[|x r]|]; reflexivity.
  - intros reason -> Hne. destruct reason as [|x r]; [congruence|].
    cbn [message_of]. literals. reflexivity.
  - intros [-> | ->]; cbn [message_of]; literals; reflexivity.
Qed.

(** A response without candidates and with the block reason SAFETY. *)
Lemma interpret_no_candidates_witness :
  interpret {| candidates := Some [];
               promptFeedback := Some {| blockReason := Some SAFETY |} |}
    [] =
  Throw (JsError
    (lit "Request blocked: " ++ SAFETY ++ lit ". Please adjust your input.")).
Proof.
  destruct (@interpret_no_candidates
              {| candidates := Some [];
                 promptFeedback := Some {| blockReason := Some SAFETY |} |}
              []) as (H & Hreason & _); [right; reflexivity|].
  rewrite H, (Hreason SAFETY); [reflexivity | reflexivity | discriminate].
Defined.

(** C7.  The request is composed for the prompt "Chef", and the model
    answers with one image part and one text part that reads
    "이유: Added a hat.": the result has the title "Chef" and the
    description "Added a hat.". *)
Theorem round_trip_chef imageBase64 mimeType blob finish ratings more feedback :
  generateImageAndAnalysis
    (fun _ =>
       Return
         {| candidates :=
              Some ({| content :=
                         Some {| parts :=
                           Some [ {| inlineData := Some blob; text := None |};
                                  {| inlineData := None;
                                     text := Some (lit "이유: Added a hat.") |} ] |};
                       finishReason := finish;
                       safetyRatings := ratings |} :: more);
            promptFeedback := feedback |})
    imageBase64 mimeType (lit "Chef") =
  Return {| image := data_url blob;
            title := lit "Chef";
            description := lit "Added a hat." |}.
Proof.
  unfold generateImageAndAnalysis. cbn [bind].
  erewrite interpret_first by reflexivity.
  rewrite scan_parts_fold. cbn [candidate_parts content parts fold_left].
  rewrite (@scan_part_image (None, None)
             {| inlineData := Some blob; text := None |} blob eq_refl).
  rewrite scan_part_text by reflexivity.
  cbn [fst snd text truthy_opt interpolate].
  rewrite data_url_truthy.
  replace (truthy (lit "이유: Added a hat.")) with true
    by (vm_compute; reflexivity).
  cbn [andb]. rewrite parse_total.
  replace (analysis (lit "이유: Added a hat.") (lit "Chef"))
    with {| Analysis.title := lit "Chef";
            Analysis.description := lit "Added a hat." |}
    by (vm_compute; reflexivity).
  reflexivity.
Qed.

(** C8, as amended.  A text part with the empty string counts for nothing:
    when the first candidate has an image part and every part without
    inline data has no text or the empty text, [interpret] throws, and when
    no rating is blocked and the finish reason is missing, empty or STOP
    the message is the one for an image without text.  A part with inline
    data gives the image and never the text, whatever its text field is. *)
Theorem empty_text_is_no_text :
  (forall response prompt candidate rest,
     candidates response = Some (candidate :: rest) ->
     has_image candidate = true ->
     (forall part,
        In part (candidate_parts candidate) -> inlineData part = None ->
        text part = None \/ text part = Some []) ->
     (exists message, interpret response prompt = Throw (JsError message)) /\
     (stopped candidate -> unblocked candidate ->
      interpret response prompt =
      Throw (JsError (message_of (IncompletePayload true false))))) /\
  (forall state part blob,
     inlineData part = Some blob ->
     scan_part state part = (Some (data_url blob), snd state) /\
     carries_text part = false).
Proof.
  split.
  - intros response prompt candidate rest Hc Hi Hempty.
    assert (Ht : has_text candidate = false).
    { apply existsb_never. intros part Hin.
      unfold carries_text, carries_image.
      destruct (inlineData part) eqn:Ei; [reflexivity|].
      destruct (Hempty part Hin Ei) as [-> | ->]; reflexivity. }
    assert (Hm : has_image candidate && has_text candidate = false)
      by (rewrite Ht; apply andb_false_r).
    split.
    + rewrite (@interpret_missing response prompt candidate rest Hc Hm).
      destruct (incomplete_is_error candidate (fst (scan_parts candidate))
                  (snd (scan_parts candidate))) as [message ->].
      exists message. reflexivity.
    + intros Hs Hu.
      rewrite (@interpret_payload response prompt candidate rest Hc Hm Hs Hu).
      rewrite Hi, Ht. reflexivity.
  - intros state part blob H. split; [exact (scan_part_image state part H)|].
    unfold carries_text, carries_image. rewrite H. reflexivity.
Qed.

Lemma empty_text_candidate_parts finish part :
  In part (candidate_parts (empty_text_candidate finish)) ->
  inlineData part = None ->
  text part = None \/ text part = Some [].
Proof.
  intros [<- | [<- | []]] H.
  - discriminate H.
  - right. reflexivity.
Qed.

(** [empty_text_candidate] with the finish reason STOP, through
    [empty_text_is_no_text]. *)
Lemma empty_text_is_no_text_witness :
  interpret {| candidates := Some [empty_text_candidate (Some STOP)];
               promptFeedback := None |} (lit "Chef") =
  Throw (JsError (message_of (IncompletePayload true false))).
Proof.
  apply (proj1 empty_text_is_no_text
           {| candidates := Some [empty_text_candidate (Some STOP)];
              promptFeedback := None |} (lit "Chef")
           (empty_text_candidate (Some STOP)) [] eq_refl eq_refl
           (@empty_text_candidate_parts (Some STOP))).
  - right. right. reflexivity.
  - intros ratings H. discriminate H.
Defined.

(** The claim C8 as it is stated fails where it gives the message for an
    image without text whenever no safety signal applies: with the finish
    reason MAX_TOKENS, which is no safety signal, the message is the one
    about generation that stopped unexpectedly. *)
Lemma empty_text_is_no_text_counterexample :
  ~ (forall response prompt candidate rest,
       candidates response = Some (candidate :: rest) ->
       has_image candidate = true ->
       (forall part,
          In part (candidate_parts candidate) -> inlineData part = None ->
          text part = None \/ text part = Some []) ->
       finishReason candidate <> Some SAFETY ->
       unblocked candidate ->
       interpret response prompt =
       Throw (JsError (message_of (IncompletePayload true false)))).
Proof.
  intros H.
  specialize (H {| candidates :=
                     Some [empty_text_candidate (Some (lit "MAX_TOKENS"))];
                   promptFeedback := None |} []
                (empty_text_candidate (Some (lit "MAX_TOKENS"))) []
                eq_refl eq_refl
                (@empty_text_candidate_parts (Some (lit "MAX_TOKENS")))).
  assert (Hs : finishReason (empty_text_candidate (Some (lit "MAX_TOKENS")))
               <> Some SAFETY) by (vm_compute; discriminate).
  assert (Hu : unblocked (empty_text_candidate (Some (lit "MAX_TOKENS"))))
    by (intros ratings Hr; discriminate Hr).
  specialize (H Hs Hu). vm_compute in H. discriminate H.
Qed.

(** ** The kinds of failure are told apart by their messages *)

Lemma kind_of_message_of f : kind_of_message (message_of f) = Some (kind_of f).
Proof.
  destruct f as [[[|x r]|] | [rating|] | reason | [|] [|]];
    vm_compute; reflexivity.
Qed.

Lemma message_of_kind f g : message_of f = message_of g -> kind_of f = kind_of g.
Proof.
  intros H. apply Some_inj.
  rewrite <- !kind_of_message_of, H. reflexivity.
Qed.

(** * Further properties of the service *)

(** X1.  [parseAnalysisText] never throws, with or without a prompt: where
    a pattern matches, its group took part in the match, so [trim] is never
    called on undefined. *)
Theorem parseAnalysisText_never_throws text userPrompt e :
  parseAnalysisText text userPrompt <> Throw e.
Proof.
  destruct userPrompt as [prompt|].
  - rewrite parse_total. discriminate.
  - rewrite parse_no_prompt. discriminate.
Qed.

Lemma In_trimStart (x : code_unit) s : In x (trimStart s) -> In x s.
Proof.
  induction s as [|y s IH]; intros H; [exact H|].
  cbn [trimStart] in H. destruct (is_space y); [right; exact (IH H) | exact H].
Qed.

Lemma fed_line_feed s : fed_line s <> None -> In line_feed s.
Proof.
  unfold fed_line. induction s as [|x s IH]; cbn [after_line line_of];
    [congruence|].
  destruct (is_line_terminator x).
  - destruct (N.eqb_spec x line_feed) as [->|]; [|congruence].
    intros _. left. reflexivity.
  - intros H. right. apply IH.
    destruct (after_line s) as [|y rest]; [congruence|].
    destruct (y =? line_feed)%N; [discriminate | congruence].
Qed.

Lemma after_last_feed_feed r t : after_last_feed r = Some t -> In line_feed r.
Proof.
  revert t. induction r as [|x r IH]; intros t; cbn [after_last_feed];
    [discriminate|].
  destruct (is_space x); [|discriminate].
  destruct (after_last_feed r) as [t'|].
  - intros _. right. exact (IH t' eq_refl).
  - destruct (N.eqb_spec x line_feed) as [->|]; [|discriminate].
    intros _. left. reflexivity.
Qed.

Lemma title_after_feed r found : title_after r = Some found -> In line_feed r.
Proof.
  unfold title_after.
  destruct (fed_line (trimStart r)) as [v|] eqn:E.
  - intros _. apply In_trimStart. apply fed_line_feed. congruence.
  - destruct (after_last_feed r) as [t|] eqn:Ef; [|discriminate].
    intros _. exact (@after_last_feed_feed r t Ef).
Qed.

Lemma title_needs_feed text :
  ~ In line_feed text -> first_match title_at text = None.
Proof.
  intros H. apply first_match_none. intros before suffix ->.
  unfold title_at. fold title_marker_at.
  destruct (title_marker_at suffix) as [r|] eqn:Em; [|reflexivity].
  destruct (title_after r) as [[captured rest]|] eqn:Et; [|reflexivity].
  apply title_marker_at_spec in Em. destruct Em as (mk & -> & _).
  destruct H. apply in_or_app. right. apply in_or_app. right.
  exact (@title_after_feed r _ Et).
Qed.

(** X2.  Without a prompt, a text that has no line feed in it gets the
    fallback title, whatever markers it has: the title pattern ends in a
    line feed.  The description is then the trimmed text after the first
    reason marker, or the text as it is. *)
Theorem title_needs_line_feed text :
  ~ In line_feed text ->
  parseAnalysisText text None =
  Return {| Analysis.title := lit "분석 결과";
            Analysis.description := reason_description text |}.
Proof.
  intros H. rewrite parse_no_prompt. unfold unprompted_analysis.
  rewrite (@title_needs_feed text H). unfold reason_description.
  destruct (first_match reason_at text); reflexivity.
Qed.

(** The answer "직업명: Chef 이유: a hat" on one line. *)
Lemma title_needs_line_feed_witness :
  parseAnalysisText (lit "직업명: Chef 이유: a hat") None =
  Return {| Analysis.title := lit "분석 결과";
            Analysis.description :=
              reason_description (lit "직업명: Chef 이유: a hat") |}.
Proof.
  apply title_needs_line_feed. apply not_in_by_search. reflexivity.
Defined.

(** Every error of [incomplete] is the message of a failure of the
    specification, and never that of a blocked request. *)
Lemma incomplete_message candidate generatedImage analysisText :
  exists f,
    incomplete candidate generatedImage analysisText = JsError (message_of f)
    /\ kind_of f <> Blocked.
Proof.
  unfold incomplete.
  destruct (is_reason (finishReason candidate) SAFETY).
  { exists (SafetyBlocked None). split; [reflexivity | discriminate]. }
  destruct (match safetyRatings candidate with
            | Some ratings => find is_blocked ratings
            | None => None
            end) as [rating|].
  { exists (SafetyBlocked (Some rating)). split; [reflexivity | discriminate]. }
  assert (Hp : exists f,
    JsError
      ((if truthy_opt generatedImage && negb (truthy_opt analysisText)
        then no_text_message
        else if negb (truthy_opt generatedImage) && truthy_opt analysisText
        then no_image_message else neither_message) ++ try_again) =
    JsError (message_of f) /\ kind_of f <> Blocked).
  { exists (IncompletePayload (truthy_opt generatedImage)
              (truthy_opt analysisText)).
    split; [|discriminate].
    destruct (truthy_opt generatedImage), (truthy_opt analysisText);
      reflexivity. }
  destruct (finishReason candidate) as [[|x reason]|];
    cbn [truthy_opt truthy andb]; try exact Hp.
  destruct (negb (is_reason _ STOP)); [|exact Hp].
  exists (AbnormalStop (x :: reason)). split; [reflexivity | discriminate].
Qed.

(** What [interpret] throws is the message of a failure, and that of a
    blocked request exactly when there is no candidate. *)
Lemma interpret_failure response prompt e :
  interpret response prompt = Throw e ->
  exists f,
    e = JsError (message_of f) /\
    (kind_of f = Blocked <->
     candidates response = None \/ candidates response = Some []).
Proof.
  intros H.
  destruct (candidates response) as [[|candidate rest]|] eqn:Hc.
  - exists (BlockedRequest (blockReason_of response)). split.
    + unfold interpret in H. rewrite Hc in H. injection H as <-.
      destruct (blockReason_of response) as [[|x r]|]; reflexivity.
    + split; [intros _; right; reflexivity | reflexivity].
  - rewrite (@interpret_first response prompt candidate rest Hc) in H.
    destruct (truthy_opt (fst (scan_parts candidate))
              && truthy_opt (snd (scan_parts candidate))).
    + rewrite parse_total in H. discriminate H.
    + injection H as <-.
      destruct (incomplete_message candidate (fst (scan_parts candidate))
                  (snd (scan_parts candidate))) as (f & -> & Hk).
      exists f. split; [reflexivity|].
      split; [contradiction | intros [E|E]; discriminate E].
  - exists (BlockedRequest (blockReason_of response)). split.
    + unfold interpret in H. rewrite Hc in H. injection H as <-.
      destruct (blockReason_of response) as [[|x r]|]; reflexivity.
    + split; [intros _; left; reflexivity | reflexivity].
Qed.

(** X3.  Whatever [interpret] throws is an Error whose message is that of
    one kind of failure: no failure of another kind has the same message,
    so the message alone tells which check failed.  The failure is a
    blocked request exactly when the response has no candidate. *)
Theorem interpret_failure_has_one_kind response prompt e :
  interpret response prompt = Throw e ->
  exists f,
    e = JsError (message_of f) /\
    (forall g, message_of g = message_of f -> kind_of g = kind_of f) /\
    (kind_of f = Blocked <->
     candidates response = None \/ candidates response = Some []).
Proof.
  intros H. destruct (@interpret_failure response prompt e H) as (f & -> & Hk).
  exists f. split; [reflexivity|]. split; [|exact Hk].
  intros g Hg. exact (@message_of_kind _ _ Hg).
Qed.

(** A response without candidates. *)
Lemma interpret_failure_has_one_kind_witness :
  exists f,
    JsError blocked_message = JsError (message_of f) /\
    (forall g, message_of g = message_of f -> kind_of g = kind_of f) /\
    (kind_of f = Blocked <->
     candidates {| candidates := None; promptFeedback := None |} = None \/
     candidates {| candidates := None; promptFeedback := None |} = Some []).
Proof.
  apply (@interpret_failure_has_one_kind
           {| candidates := None; promptFeedback := None |} []).
  reflexivity.
Defined.

Section Transport.

Variable generateContent : GenerateContentParameters
                           -> outcome GenerateContentResponse.
Variables imageBase64 mimeType prompt : jsstring.

(** X4.  When the call to the model returns a response, the outcome of
    [generateImageAndAnalysis] is that of [interpret] on the response: the
    catch clause changes neither the result nor the error.  When the call
    throws, an Error is thrown on as it is, be it one made with a message or
    a TypeError (the response handling does not run), and any other value
    is replaced by the Error about an unknown error.  So what
    [generateImageAndAnalysis] throws is always an Error. *)
Theorem generateImageAndAnalysis_outcome :
  (forall response,
     generateContent (composeRequest imageBase64 mimeType prompt) =
     Return response ->
     generateImageAndAnalysis generateContent imageBase64 mimeType prompt =
     interpret response prompt) /\
  (forall e,
     generateContent (composeRequest imageBase64 mimeType prompt) = Throw e ->
     generateImageAndAnalysis generateContent imageBase64 mimeType prompt =
     Throw match e with
           | JsError message => JsError message
           | TypeError => TypeError
           | NotAnError =>
             JsError (lit "An unknown error occurred during the API call.")
           end) /\
  generateImageAndAnalysis generateContent imageBase64 mimeType prompt
  <> Throw NotAnError.
Proof.
  unfold generateImageAndAnalysis. split; [|split].
  - intros response ->. cbn [bind]. unfold guarded.
    destruct (interpret response prompt) as [r|e] eqn:E; [reflexivity|].
    destruct (@interpret_failure response prompt e E) as (f & -> & _).
    reflexivity.
  - intros e ->. destruct e as [message| |]; cbn [bind guarded rethrow].
    + reflexivity.
    + reflexivity.
    + literals. reflexivity.
  - unfold guarded.
    destruct (response <- generateContent
                (composeRequest imageBase64 mimeType prompt) ;;
              interpret response prompt) as [r|[m| |]]; discriminate.
Qed.

End Transport.

(** A model that answers with no candidate, one whose call throws a
    TypeError, and one whose call throws a string. *)
Lemma generateImageAndAnalysis_outcome_witness :
  generateImageAndAnalysis
    (fun _ => Return {| candidates := Some []; promptFeedback := None |})
    [] [] [] =
  interpret {| candidates := Some []; promptFeedback := None |} [] /\
  generateImageAndAnalysis (fun _ => Throw TypeError) [] [] [] =
  Throw TypeError /\
  generateImageAndAnalysis (fun _ => Throw NotAnError) [] [] [] =
  Throw (JsError (lit "An unknown error occurred during the API call.")).
Proof.
  split; [|split].
  - apply (proj1 (generateImageAndAnalysis_outcome
                    (fun _ => Return {| candidates := Some [];
                                        promptFeedback := None |}) [] [] [])).
    reflexivity.
  - apply (proj1 (proj2 (generateImageAndAnalysis_outcome
                           (fun _ => Throw TypeError) [] [] []))
             TypeError).
    reflexivity.
  - apply (proj1 (proj2 (generateImageAndAnalysis_outcome
                           (fun _ => Throw NotAnError) [] [] []))
             NotAnError).
    reflexivity.
Defined.

(** * The name of the downloaded file *)

Lemma run_space R fl s c (k : continuation R) :
  run fl Space s c k = one is_space s c k.
Proof. reflexivity. Qed.

Lemma run_spaces s :
  run App.no_flags App.spaces s [] final =
  match s with
  | x :: s' => if is_space x then Some (trimStart s', []) else None
  | [] => None
  end.
Proof.
  unfold App.spaces. rewrite run_seq, run_space.
  destruct s as [|x s']; [reflexivity|]. cbn [one].
  destruct (is_space x); [|reflexivity].
  rewrite run_star_space. apply longest_first_space. reflexivity.
Qed.

Lemma trimStart_length s : length (trimStart s) <= length s.
Proof.
  induction s as [|x s IH]; [apply Nat.le_refl|].
  cbn [trimStart]. destruct (is_space x); cbn [length]; lia.
Qed.

Lemma squeeze_trimStart s : squeeze true s = squeeze false (trimStart s).
Proof.
  induction s as [|x s IH]; [reflexivity|].
  cbn [squeeze trimStart]. destruct (is_space x) eqn:E; [exact IH|].
  cbn [squeeze]. rewrite E. reflexivity.
Qed.

Lemma replace_matches_squeeze n : forall s,
  length s < n ->
  App.replace_matches App.no_flags App.spaces App.underscore n s =
  squeeze false s.
Proof.
  induction n as [|n IH]; intros s Hn; [lia|].
  cbn [App.replace_matches]. fold final. rewrite run_spaces.
  destruct s as [|x s']; [reflexivity|]. cbn [squeeze].
  destruct (is_space x).
  - pose proof (trimStart_length s') as Hl.
    assert (Hlt : (length (trimStart s') <? length (x :: s')) = true)
      by (apply Nat.ltb_lt; cbn [length]; lia).
    rewrite Hlt, IH by (cbn [length] in Hn; lia).
    rewrite squeeze_trimStart. reflexivity.
  - rewrite IH by (cbn [length] in Hn; lia). reflexivity.
Qed.

Lemma squeeze_no_space b s :
  Forall (fun c => is_space c = false) (squeeze b s).
Proof.
  revert b. induction s as [|x s IH]; intros b; [constructor|].
  cbn [squeeze]. destruct (is_space x) eqn:E.
  - destruct b; [apply IH|]. constructor; [reflexivity | apply IH].
  - constructor; [exact E | apply IH].
Qed.

Lemma squeeze_without_space s :
  Forall (fun c => is_space c = false) s -> squeeze false s = s.
Proof.
  induction 1 as [|x s Hx _ IH]; [reflexivity|].
  cbn [squeeze]. rewrite Hx, IH. reflexivity.
Qed.

(** X5.  The file name that [handleDownload] gives the image is the title
    with every run of white space (line breaks included) made one
    underscore, followed by "_career_vision.png": it holds no white space,
    and a title without white space is kept as it is.  The address of the
    link is the image of the result. *)
Theorem download_name shown :
  fst (App.handleDownload shown) = image shown /\
  snd (App.handleDownload shown) =
    squeeze false (title shown) ++ lit "_career_vision.png" /\
  Forall (fun c => is_space c = false) (snd (App.handleDownload shown)) /\
  (Forall (fun c => is_space c = false) (title shown) ->
   snd (App.handleDownload shown) = title shown ++ lit "_career_vision.png").
Proof.
  assert (E : snd (App.handleDownload shown) =
              squeeze false (title shown) ++ App.download_suffix).
  { unfold App.handleDownload, App.replaceAll. cbn [snd].
    rewrite replace_matches_squeeze by lia. reflexivity. }
  replace (lit "_career_vision.png") with App.download_suffix
    by (vm_compute; reflexivity).
  split; [reflexivity|]. split; [exact E|]. split.
  - rewrite E. apply Forall_app. split; [apply squeeze_no_space|].
    unfold App.download_suffix. repeat constructor.
  - intros H. rewrite E, (@squeeze_without_space (title shown) H).
    reflexivity.
Qed.

(** The title "Chef", which has no white space. *)
Lemma download_name_witness :
  snd (App.handleDownload
         {| image := []; title := lit "Chef"; description := [] |}) =
  lit "Chef" ++ lit "_career_vision.png".
Proof.
  apply (proj2 (proj2 (proj2 (download_name
           {| image := []; title := lit "Chef"; description := [] |})))).
  repeat constructor.
Defined.

(** * The page *)

Section Page.

Variable generateContent : GenerateContentParameters
                           -> outcome GenerateContentResponse.
Variable type_error_message : jsstring.

Lemma settled_initial : settled App.initial.
Proof.
  unfold settled, App.initial. cbn.
  repeat split; intros; congruence.
Qed.

Lemma handle_settled st e :
  settled st ->
  settled (App.handle generateContent type_error_message st e).
Proof.
  intros Hst. pose proof Hst as (Hp & Hl & Hs & He & Hi).
  destruct e as [uploaded [encoded|thrown] | p | | ].
  - unfold settled. cbn. repeat split; intros; congruence.
  - unfold settled. cbn. repeat split; intros; congruence.
  - unfold settled. cbn. repeat split; try assumption; apply Hs; assumption.
  - unfold App.handle, App.handleGenerate.
    destruct (App.originalImage st) as [uploaded|] eqn:Ei; [|exact Hst].
    destruct (generateImageAndAnalysis generateContent
                (App.base64 uploaded) (App.type (App.file uploaded))
                (App.prompt st)) as [r|thrown];
      unfold settled; cbn; rewrite ?Ei;
      repeat split; intros; congruence.
  - unfold settled. cbn. repeat split; intros; congruence.
Qed.

Lemma events_settled es : forall st,
  settled st ->
  settled (fold_left (App.handle generateContent type_error_message) es st).
Proof.
  induction es as [|e es IH]; intros st H; [exact H|].
  cbn [fold_left]. apply IH. apply handle_settled. exact H.
Qed.

Lemma settled_shows st :
  settled st ->
  App.loader (App.render st) = false /\
  App.uploader (App.render st) || App.form (App.render st)
  || App.resultDisplay (App.render st) || App.errorBox (App.render st) = true.
Proof.
  intros (Hp & Hl & Hs & He & Hi). unfold App.render. cbn.
  destruct (App.status st) eqn:E; cbn.
  - split; [reflexivity|]. destruct (App.originalImage st); reflexivity.
  - congruence.
  - destruct (Hs eq_refl) as [Hr Ho]. split; [reflexivity|].
    destruct (App.result st); [|congruence].
    destruct (App.originalImage st); [|congruence]. reflexivity.
  - split; [reflexivity|]. apply orb_true_r.
Qed.

Lemma page_settled es :
  settled (App.run_events generateContent type_error_message es).
Proof. apply events_settled. exact settled_initial. Qed.

(** X7.  When the file cannot be read while no image is held, the page is
    left with the error box alone: the upload panel is shown in the status
    IDLE only and the form only with an image, so neither they nor the
    result are rendered, and with them every control that uploads,
    generates or resets is gone.  [handleGenerate] itself would do nothing
    in that state. *)
Theorem failed_upload_leaves_error_only st uploaded thrown :
  App.originalImage st = None ->
  App.render (App.handle generateContent type_error_message st (App.Upload uploaded (Throw thrown))) =
  {| App.loader := false; App.uploader := false; App.form := false;
     App.resultDisplay := false; App.errorBox := true |} /\
  App.error (App.handle generateContent type_error_message st (App.Upload uploaded (Throw thrown))) =
  Some (lit "이미지 파일을 읽는데 실패했습니다.") /\
  App.handle generateContent type_error_message (App.handle generateContent type_error_message st (App.Upload uploaded (Throw thrown))) App.Generate =
  App.handle generateContent type_error_message st (App.Upload uploaded (Throw thrown)).
Proof.
  intros H. cbn. rewrite H. cbn.
  split; [reflexivity|]. split; [|reflexivity].
  replace (lit "이미지 파일을 읽는데 실패했습니다.")
    with App.read_failed_message by (vm_compute; reflexivity).
  reflexivity.
Qed.


End Page.


(** A first upload that fails, through
    [failed_upload_leaves_error_only]. *)
Lemma failed_upload_leaves_error_only_witness :
  App.render
    (App.handle (fun _ => Throw NotAnError) []
       App.initial (App.Upload {| App.type := [] |} (Throw NotAnError))) =
  {| App.loader := false; App.uploader := false; App.form := false;
     App.resultDisplay := false; App.errorBox := true |}.
Proof.
  apply (proj1 (@failed_upload_leaves_error_only
                  (fun _ => Throw NotAnError) [] App.initial
                  {| App.type := [] |} NotAnError eq_refl)).
Defined.

(** * Handlers that overlap *)

Section Overlap.

Variable generateContent : GenerateContentParameters
                           -> outcome GenerateContentResponse.
Variable type_error_message : jsstring.

(** The two halves of a handler are the handler. *)
Lemma handleImageUpload_halves uploaded read :
  App.handleImageUpload uploaded read =
  upload_begins ++ upload_ends uploaded read.
Proof. reflexivity. Qed.

Lemma handleGenerate_halves st :
  App.handleGenerate generateContent type_error_message st =
  match App.originalImage st with
  | None => []
  | Some uploaded =>
    generate_begins (App.prompt st)
    ++ generate_ends type_error_message
         (generateImageAndAnalysis generateContent (App.base64 uploaded)
            (App.type (App.file uploaded)) (App.prompt st))
  end.
Proof.
  unfold App.handleGenerate. destruct (App.originalImage st); reflexivity.
Qed.

Lemma apply_updates_app st us vs :
  App.apply_updates st (us ++ vs) =
  App.apply_updates (App.apply_updates st us) vs.
Proof. apply fold_left_app. Qed.

(** A handler whose promise settles before anything else happens is the
    handler run in one piece. *)
Lemma upload_in_one_piece pg uploaded read :
  run_actions generateContent type_error_message pg
    [Pick uploaded; Read_done 0 read] =
  Some {| cells :=
            App.handle generateContent type_error_message (cells pg)
              (App.Upload uploaded read);
          awaited := awaited pg |}.
Proof.
  cbn [run_actions act take awaited cells]. unfold App.handle.
  rewrite handleImageUpload_halves, apply_updates_app. reflexivity.
Qed.

Lemma generate_in_one_piece pg uploaded :
  App.originalImage (cells pg) = Some uploaded ->
  run_actions generateContent type_error_message pg
    [Press_generate; Answer_done 0] =
  Some {| cells :=
            App.handle generateContent type_error_message (cells pg)
              App.Generate;
          awaited := awaited pg |}.
Proof.
  intros H. cbn [run_actions act]. rewrite H.
  cbn [take awaited cells]. unfold App.handle.
  rewrite handleGenerate_halves, H, apply_updates_app. reflexivity.
Qed.

Lemma coherent_start : coherent start.
Proof.
  unfold coherent, start. cbn. repeat split; intros; congruence.
Qed.

Lemma act_coherent pg a pg' :
  coherent pg ->
  act generateContent type_error_message pg a = Some pg' ->
  coherent pg'.
Proof.
  intros (Hq & Hs & He) H. destruct a as [uploaded|p| | |n read|n];
    cbn [act] in H.
  - injection H as <-. unfold coherent. cbn.
    repeat split; intros; congruence.
  - injection H as <-. unfold coherent. cbn.
    repeat split; try assumption; apply Hq; assumption.
  - destruct (App.originalImage (cells pg)) as [uploaded|];
      injection H as <-.
    + unfold coherent. cbn. repeat split; intros; congruence.
    + split; [exact Hq | split; [exact Hs | exact He]].
  - injection H as <-. unfold coherent. cbn.
    repeat split; intros; try congruence. apply Hq. assumption.
  - destruct (take n (awaited pg)) as [[[uploaded|uploaded p] others]|];
      try discriminate H.
    injection H as <-. destruct read as [encoded|thrown];
      unfold coherent; cbn; repeat split; intros; congruence.
  - destruct (take n (awaited pg)) as [[[uploaded|uploaded p] others]|];
      try discriminate H.
    injection H as <-.
    destruct (generateImageAndAnalysis generateContent (App.base64 uploaded)
                (App.type (App.file uploaded)) p) as [r|thrown];
      unfold coherent; cbn; repeat split; intros; congruence.
Qed.

Lemma run_coherent actions : forall pg pg',
  coherent pg ->
  run_actions generateContent type_error_message pg actions = Some pg' ->
  coherent pg'.
Proof.
  induction actions as [|a rest IH]; intros pg pg' Hc H; cbn [run_actions] in H.
  - injection H as <-. exact Hc.
  - destruct (act generateContent type_error_message pg a) as [pg1|] eqn:E;
      [|discriminate H].
    exact (IH pg1 pg' (@act_coherent pg a pg1 Hc E) H).
Qed.

Lemma act_calm pg a pg' :
  calm pg ->
  settles a || nothing_awaited pg = true ->
  act generateContent type_error_message pg a = Some pg' ->
  calm pg'.
Proof.
  unfold calm, nothing_awaited. intros Hc Hu H.
  destruct a as [uploaded|p| | |n read|n]; cbn [act settles orb] in H, Hu.
  - destruct (awaited pg) as [|x r] eqn:Ea; [|discriminate Hu].
    injection H as <-. cbn. reflexivity.
  - destruct (awaited pg) as [|x r] eqn:Ea; [|discriminate Hu].
    injection H as <-. cbn [awaited cells].
    destruct Hc as (Hp & Hl & Hs & He & Hi).
    unfold settled. cbn. repeat split; try assumption; apply Hs; assumption.
  - destruct (awaited pg) as [|x r] eqn:Ea; [|discriminate Hu].
    destruct (App.originalImage (cells pg)) as [uploaded|] eqn:Ei;
      injection H as <-.
    + cbn. rewrite Ei. discriminate.
    + rewrite Ea. exact Hc.
  - destruct (awaited pg) as [|x r] eqn:Ea; [|discriminate Hu].
    injection H as <-. cbn [awaited cells].
    destruct Hc as (Hp & Hl & Hs & He & Hi).
    unfold settled. cbn. repeat split; intros; congruence.
  - destruct (awaited pg) as [|[f|u q] [|y r]]; try contradiction;
      destruct n as [|n]; cbn [take] in H; try discriminate H.
    injection H as <-. cbn [awaited cells].
    destruct read as [encoded|thrown]; unfold settled; cbn;
      repeat split; intros; congruence.
  - destruct (awaited pg) as [|[f|u q] [|y r]]; try contradiction;
      destruct n as [|n]; cbn [take] in H; try discriminate H.
    injection H as <-. cbn [awaited cells].
    destruct (generateImageAndAnalysis generateContent (App.base64 u)
                (App.type (App.file u)) q) as [g|thrown];
      unfold settled; cbn; repeat split; intros; congruence.
Qed.

Lemma run_calm actions : forall pg pg',
  calm pg ->
  unhurried generateContent type_error_message pg actions = true ->
  run_actions generateContent type_error_message pg actions = Some pg' ->
  calm pg'.
Proof.
  induction actions as [|a rest IH]; intros pg pg' Hc Hu H;
    cbn [run_actions unhurried] in H, Hu.
  - injection H as <-. exact Hc.
  - destruct (act generateContent type_error_message pg a) as [pg1|] eqn:E;
      [|discriminate H].
    apply andb_prop in Hu. destruct Hu as [Hu1 Hu2].
    exact (IH pg1 pg' (@act_calm pg a pg1 Hc Hu1 E) Hu2 H).
Qed.

Lemma use_all_run actions : forall pg pg',
  use_all generateContent type_error_message pg actions = Some pg' ->
  run_actions generateContent type_error_message pg actions = Some pg'.
Proof.
  induction actions as [|a rest IH]; intros pg pg' H;
    cbn [use_all run_actions] in *; [exact H|].
  unfold use in H. destruct (offered pg a); [|discriminate H].
  destruct (act generateContent type_error_message pg a) as [pg1|];
    [|discriminate H].
  exact (IH pg1 pg' H).
Qed.

(** X6.  The page under handlers that overlap.  Whatever the order in
    which handlers are called and awaited promises settle: once nothing is
    awaited the status is not PROCESSING, the loading message is empty and
    the loader is hidden; in the status SUCCESS a result is there; in the
    status ERROR an error is there and the error box is shown.  When
    moreover no handler was called while another one waited, the page is
    settled, so in the status SUCCESS the image is there too, in the status
    IDLE there is no error, and at least one of the upload panel, the form,
    the result and the error box is shown. *)
Theorem page_with_overlaps actions pg :
  run_actions generateContent type_error_message start actions = Some pg ->
  (awaited pg = [] ->
   App.status (cells pg) <> App.PROCESSING /\
   App.loadingMessage (cells pg) = [] /\
   App.loader (App.render (cells pg)) = false) /\
  (App.status (cells pg) = App.SUCCESS -> App.result (cells pg) <> None) /\
  (App.status (cells pg) = App.ERROR ->
   App.error (cells pg) <> None /\
   App.errorBox (App.render (cells pg)) = true) /\
  (unhurried generateContent type_error_message start actions = true ->
   awaited pg = [] ->
   settled (cells pg) /\
   App.uploader (App.render (cells pg)) || App.form (App.render (cells pg))
   || App.resultDisplay (App.render (cells pg))
   || App.errorBox (App.render (cells pg)) = true).
Proof.
  intros H.
  destruct (@run_coherent actions start pg coherent_start H) as (Hq & Hs & He).
  split; [|split; [|split]].
  - intros Ha. destruct (Hq Ha) as [Hp Hl]. split; [exact Hp|].
    split; [exact Hl|]. unfold App.render. cbn [App.loader].
    destruct (App.status (cells pg)); try reflexivity. congruence.
  - exact Hs.
  - intros E. split; [exact (He E)|]. unfold App.render. cbn [App.errorBox].
    rewrite E. reflexivity.
  - intros Hu Ha.
    assert (Hc : calm start) by exact settled_initial.
    pose proof (@run_calm actions start pg Hc Hu H) as Hcalm.
    unfold calm in Hcalm. rewrite Ha in Hcalm.
    split; [exact Hcalm | exact (proj2 (settled_shows Hcalm))].
Qed.

(** X12.  A reset while [handleGenerate] waits.  On a page that offers the
    generate button and awaits nothing, the page offers the reset button
    after the button was pressed, although it is loading.  When the reset
    is pressed and the call of the service settles after it, the rest of
    [handleGenerate] runs on the emptied cells: a result is stored with the
    status SUCCESS and no image, and the page shows nothing at all; an
    error is stored with the status ERROR, and the page shows the error box
    alone.  Either way the page offers no control any more and awaits
    nothing. *)
Theorem reset_while_generating pg :
  awaited pg = [] ->
  offered pg Press_generate = true ->
  exists uploaded pg',
    App.originalImage (cells pg) = Some uploaded /\
    use_all generateContent type_error_message pg
      [Press_generate; Press_reset; Answer_done 0] = Some pg' /\
    awaited pg' = [] /\
    cells pg' =
    match generateImageAndAnalysis generateContent (App.base64 uploaded)
            (App.type (App.file uploaded)) (App.prompt (cells pg)) with
    | Return generated =>
      {| App.status := App.SUCCESS; App.originalImage := None;
         App.prompt := []; App.result := Some generated;
         App.error := None; App.loadingMessage := [] |}
    | Throw e =>
      {| App.status := App.ERROR; App.originalImage := None;
         App.prompt := []; App.result := None;
         App.error := Some (App.errorMessage type_error_message e);
         App.loadingMessage := [] |}
    end /\
    App.render (cells pg') =
    match generateImageAndAnalysis generateContent (App.base64 uploaded)
            (App.type (App.file uploaded)) (App.prompt (cells pg)) with
    | Return _ => blank
    | Throw _ => error_only
    end /\
    forall a, use generateContent type_error_message pg' a = None.
Proof.
  intros Ha Ho.
  destruct (App.originalImage (cells pg)) as [uploaded|] eqn:Ei.
  2:{ unfold offered, App.render in Ho. cbn in Ho. rewrite Ei in Ho.
      cbn in Ho. rewrite !andb_false_r in Ho. discriminate Ho. }
  exists uploaded.
  cbn [use_all]. unfold use at 1. rewrite Ho. cbn [act]. rewrite Ei.
  unfold use at 1. unfold offered at 1. cbn. rewrite Ei. cbn.
  unfold use at 1. unfold offered at 1. cbn. rewrite Ha. cbn.
  eexists. split; [reflexivity|]. split; [reflexivity|].
  cbn [awaited cells].
  destruct (generateImageAndAnalysis generateContent (App.base64 uploaded)
              (App.type (App.file uploaded)) (App.prompt (cells pg)))
    as [generated|e]; cbn.
  - repeat split. intros [f|p| | |n read|n]; reflexivity.
  - repeat split. intros [f|p| | |n read|n]; reflexivity.
Qed.

End Overlap.

(** A file is chosen and read, generating is started and reset, and the
    call throws something that is no Error: the error box is shown.  And
    the same upload alone, in which no handler is called while another
    waits: the page is settled. *)
Lemma page_with_overlaps_witness :
  (run_actions (fun _ => Throw NotAnError) [] start
     [Pick {| App.type := [] |}; Read_done 0 (Return []);
      Press_generate; Press_reset; Answer_done 0] =
   Some {| cells :=
             {| App.status := App.ERROR; App.originalImage := None;
                App.prompt := []; App.result := None;
                App.error := Some unknown_message;
                App.loadingMessage := [] |};
           awaited := [] |} /\
   App.errorBox
     (App.render
        {| App.status := App.ERROR; App.originalImage := None;
           App.prompt := []; App.result := None;
           App.error := Some unknown_message;
           App.loadingMessage := [] |}) = true) /\
  (unhurried (fun _ => Throw NotAnError) [] start
     [Pick {| App.type := [] |}; Read_done 0 (Return [])] = true /\
   settled
     {| App.status := App.IDLE;
        App.originalImage :=
          Some {| App.file := {| App.type := [] |}; App.base64 := [] |};
        App.prompt := []; App.result := None; App.error := None;
        App.loadingMessage := [] |}).
Proof.
  split.
  - assert (H : run_actions (fun _ => Throw NotAnError) [] start
                  [Pick {| App.type := [] |}; Read_done 0 (Return []);
                   Press_generate; Press_reset; Answer_done 0] =
                Some {| cells :=
                          {| App.status := App.ERROR;
                             App.originalImage := None;
                             App.prompt := []; App.result := None;
                             App.error := Some unknown_message;
                             App.loadingMessage := [] |};
                        awaited := [] |})
      by (vm_compute; reflexivity).
    split; [exact H|].
    exact (proj2 (proj1 (proj2 (proj2 (page_with_overlaps _ _ _ H)))
                    eq_refl)).
  - assert (H : run_actions (fun _ => Throw NotAnError) [] start
                  [Pick {| App.type := [] |}; Read_done 0 (Return [])] =
                Some {| cells :=
                          {| App.status := App.IDLE;
                             App.originalImage :=
                               Some {| App.file := {| App.type := [] |};
                                       App.base64 := [] |};
                             App.prompt := []; App.result := None;
                             App.error := None;
                             App.loadingMessage := [] |};
                        awaited := [] |})
      by (vm_compute; reflexivity).
    split; [reflexivity|].
    exact (proj1 (proj2 (proj2 (proj2 (page_with_overlaps _ _ _ H)))
                    eq_refl eq_refl)).
Defined.

(** The page after an upload, with a model whose call throws a string. *)
Lemma reset_while_generating_witness :
  exists uploaded pg',
    Some {| App.file := {| App.type := [] |}; App.base64 := [] |} =
    Some uploaded /\
    use_all (fun _ => Throw NotAnError) []
      {| cells :=
           {| App.status := App.IDLE;
              App.originalImage :=
                Some {| App.file := {| App.type := [] |};
                        App.base64 := [] |};
              App.prompt := []; App.result := None; App.error := None;
              App.loadingMessage := [] |};
         awaited := [] |}
      [Press_generate; Press_reset; Answer_done 0] = Some pg' /\
    App.render (cells pg') = error_only.
Proof.
  destruct (@reset_while_generating (fun _ => Throw NotAnError) []
              {| cells :=
                   {| App.status := App.IDLE;
                      App.originalImage :=
                        Some {| App.file := {| App.type := [] |};
                                App.base64 := [] |};
                      App.prompt := []; App.result := None;
                      App.error := None;
                      App.loadingMessage := [] |};
                 awaited := [] |} eq_refl eq_refl)
    as (uploaded & pg' & H1 & H2 & _ & _ & H3 & _).
  exists uploaded, pg'. split; [exact H1|]. split; [exact H2|].
  injection H1 as <-. exact H3.
Defined.


(** * The title line that is taken out of the description *)

Lemma replace_unfold p r s :
  replace p r s =
  if startsWith p s then r ++ skipn (length p) s
  else
    match s with
    | [] => []
    | c :: s' => c :: replace p r s'
    end.
Proof. destruct s; reflexivity. Qed.

Lemma startsWith_spec p : forall s,
  startsWith p s = true -> exists t, s = p ++ t.
Proof.
  induction p as [|a p IH]; intros s H; [exists s; reflexivity|].
  destruct s as [|b s]; [discriminate|]. cbn [startsWith] in H.
  apply andb_prop in H. destruct H as [Hab Hs].
  apply N.eqb_eq in Hab. subst b.
  destruct (IH s Hs) as [t ->]. exists t. reflexivity.
Qed.

Lemma startsWith_here p t : startsWith p (p ++ t) = true.
Proof.
  induction p as [|a p IH]; [reflexivity|].
  cbn [app startsWith]. rewrite N.eqb_refl. exact IH.
Qed.

Lemma skipn_here (p t : jsstring) : skipn (length p) (p ++ t) = t.
Proof. induction p as [|a p IH]; [reflexivity | exact IH]. Qed.

(** [replace] takes out the occurrence of [p] at [before] when [p] does not
    occur further to the left. *)
Lemma replace_first p after : forall before,
  (forall before' rest',
     before ++ p ++ after = before' ++ rest' ->
     length before' < length before -> startsWith p rest' = false) ->
  replace p [] (before ++ p ++ after) = before ++ after.
Proof.
  induction before as [|x before IH]; intros H; rewrite replace_unfold.
  - cbn [app]. rewrite startsWith_here, skipn_here. reflexivity.
  - rewrite (H [] ((x :: before) ++ p ++ after)) by (cbn; first [reflexivity | lia]).
    cbn [app]. f_equal. apply IH. intros before' rest' E Hlt.
    apply (H (x :: before') rest'); cbn; [congruence | lia].
Qed.

Lemma line_split s :
  s = line_of s ++ after_line s /\
  Forall (fun x => is_line_terminator x = false) (line_of s).
Proof.
  induction s as [|x s [E H]]; [split; [reflexivity | constructor]|].
  cbn [line_of after_line]. destruct (is_line_terminator x) eqn:El.
  - split; [reflexivity | constructor].
  - split; [cbn [app]; congruence | constructor; assumption].
Qed.

Lemma fed_line_shape s line rest :
  fed_line s = Some (line, rest) ->
  s = line ++ line_feed :: rest /\
  Forall (fun x => is_line_terminator x = false) line.
Proof.
  unfold fed_line. destruct (line_split s) as [E H].
  destruct (after_line s) as [|y rest']; [discriminate|].
  destruct (N.eqb_spec y line_feed) as [->|]; [|discriminate].
  intros [= <- <-]. split; assumption.
Qed.

Lemma trimStart_split s :
  exists ws, s = ws ++ trimStart s /\ Forall (fun x => is_space x = true) ws.
Proof.
  induction s as [|x s (ws & E & H)]; [exists []; split; [reflexivity | constructor]|].
  cbn [trimStart]. destruct (is_space x) eqn:Ex.
  - exists (x :: ws). split; [cbn [app]; congruence | constructor; assumption].
  - exists []. split; [reflexivity | constructor].
Qed.

Lemma trimStart_head s x t : trimStart s = x :: t -> is_space x = false.
Proof.
  induction s as [|y s IH]; cbn [trimStart]; [discriminate|].
  destruct (is_space y) eqn:Ey; [exact IH|].
  intros [= <- _]. exact Ey.
Qed.

Lemma trimStart_spaces ws t :
  Forall (fun x => is_space x = true) ws -> trimStart (ws ++ t) = trimStart t.
Proof.
  induction 1 as [|x ws Hx _ IH]; [reflexivity|].
  cbn [app trimStart]. rewrite Hx. exact IH.
Qed.

Lemma after_last_feed_shape : forall r rest,
  after_last_feed r = Some rest ->
  exists ws, r = ws ++ line_feed :: rest /\
             Forall (fun x => is_space x = true) ws.
Proof.
  induction r as [|x r IH]; intros rest; cbn [after_last_feed];
    [discriminate|].
  destruct (is_space x) eqn:Ex; [|discriminate].
  destruct (after_last_feed r) as [t|].
  - intros [= ->]. destruct (IH rest eq_refl) as (ws & -> & H).
    exists (x :: ws). split; [reflexivity | constructor; assumption].
  - destruct (N.eqb_spec x line_feed) as [->|]; [|discriminate].
    intros [= ->]. exists []. split; [reflexivity | constructor].
Qed.

Lemma after_last_feed_here ws t :
  Forall (fun x => is_space x = true) ws ->
  after_last_feed (ws ++ line_feed :: t) <> None.
Proof.
  induction 1 as [|x ws Hx _ IH]; cbn [app after_last_feed].
  - change (is_space line_feed) with true. cbn iota.
    destruct (after_last_feed t); discriminate.
  - rewrite Hx.
    destruct (after_last_feed (ws ++ line_feed :: t)); [discriminate|].
    congruence.
Qed.

(** What the title pattern took after the marker ends in a line feed, and
    the same stretch is matched again wherever it stands. *)
Lemma title_after_shape r captured rest :
  title_after r = Some (captured, rest) ->
  exists taken,
    r = taken ++ line_feed :: rest /\
    forall t, title_after (taken ++ line_feed :: t) <> None.
Proof.
  unfold title_after.
  destruct (fed_line (trimStart r)) as [[line rest']|] eqn:Ef.
  - intros [= <- <-].
    destruct (fed_line_shape _ Ef) as [E Hl].
    destruct (trimStart_split r) as (ws & Er & Hws).
    exists (ws ++ line). split.
    + rewrite <- app_assoc, <- E. exact Er.
    + intros t. rewrite <- app_assoc, (trimStart_spaces _ Hws).
      destruct line as [|x line].
      * cbn [app] in E. apply trimStart_head in E. discriminate E.
      * cbn [app] in E. pose proof (trimStart_head _ E) as Hx.
        cbn [app trimStart]. rewrite Hx.
        change (x :: line ++ line_feed :: t)
          with ((x :: line) ++ line_feed :: t).
        rewrite (fed_line_app t Hl). discriminate.
  - destruct (after_last_feed r) as [t'|] eqn:Ea; [|discriminate].
    intros [= <- <-].
    destruct (after_last_feed_shape _ Ea) as (ws & -> & Hws).
    exists ws. split; [reflexivity|]. intros t.
    destruct (fed_line (trimStart (ws ++ line_feed :: t))); [discriminate|].
    pose proof (@after_last_feed_here ws t Hws) as Hn.
    destruct (after_last_feed (ws ++ line_feed :: t)); [discriminate|].
    congruence.
Qed.

Lemma title_at_shape s matched captured :
  title_at s = Some (matched, captured) ->
  exists mk taken rest,
    title_marker mk /\
    matched = mk ++ taken ++ [line_feed] /\
    s = matched ++ rest /\
    forall t, title_at (matched ++ t) <> None.
Proof.
  unfold title_at. fold title_marker_at.
  destruct (title_marker_at s) as [r|] eqn:Em; [|discriminate].
  destruct (title_after r) as [[captured' rest]|] eqn:Et; [|discriminate].
  intros [= <- <-].
  apply title_marker_at_spec in Em. destruct Em as (mk & -> & Hmk).
  destruct (title_after_shape _ Et) as (taken & -> & Hagain).
  assert (Ec : consumed (mk ++ taken ++ line_feed :: rest) rest =
               mk ++ taken ++ [line_feed]).
  { replace (mk ++ taken ++ line_feed :: rest)
      with ((mk ++ taken ++ [line_feed]) ++ rest)
      by (rewrite <- !app_assoc; reflexivity).
    apply consumed_app. }
  rewrite Ec. exists mk, taken, rest. split; [exact Hmk|].
  split; [reflexivity|]. split; [rewrite <- !app_assoc; reflexivity|].
  intros t.
  assert (Em : title_marker_at ((mk ++ taken ++ [line_feed]) ++ t) =
               Some (taken ++ line_feed :: t)).
  { apply title_marker_at_spec. exists mk.
    split; [rewrite <- !app_assoc; reflexivity | exact Hmk]. }
  rewrite Em. specialize (Hagain t).
  destruct (title_after (taken ++ line_feed :: t)) as [[c' r']|];
    [discriminate | congruence].
Qed.

(** X9.  When the text has no reason marker and the title pattern matches,
    the description is the text without the matched stretch itself (from
    the marker to the line feed that ends the match), trimmed:
    [text.replace(titleMatch[0], '')] finds the string of the match at the
    place of the match, and not further to the left. *)
Theorem matched_title_is_removed text matched captured :
  absent reason_marker text ->
  first_match title_at text = Some (matched, captured) ->
  exists before after mk taken,
    text = before ++ matched ++ after /\
    matched = mk ++ taken ++ [line_feed] /\ title_marker mk /\
    (forall before' rest',
       text = before' ++ rest' -> length before' < length before ->
       title_at rest' = None) /\
    parseAnalysisText text None =
    Return {| Analysis.title := trim captured;
              Analysis.description := trim (before ++ after) |}.
Proof.
  intros Hr Ht.
  destruct (first_match_elim _ _ Ht) as (before & suffix & E & Hs & Hmin).
  destruct (title_at_shape _ Hs) as (mk & taken & after & Hmk & Em & -> & Hagain).
  exists before, after, mk, taken.
  split; [exact E|]. split; [exact Em|]. split; [exact Hmk|].
  split; [exact Hmin|].
  rewrite parse_no_prompt. unfold unprompted_analysis.
  rewrite Ht, (@no_reason text Hr). rewrite E at 1.
  rewrite replace_first; [reflexivity|].
  intros before' rest' E' Hlt.
  destruct (startsWith matched rest') eqn:Esw; [|reflexivity].
  apply startsWith_spec in Esw. destruct Esw as [t ->].
  rewrite <- E in E'. specialize (Hmin before' (matched ++ t) E' Hlt).
  destruct (Hagain t Hmin).
Qed.

(** The text "직업명: Chef", line feed, "She cooks.". *)
Lemma matched_title_is_removed_witness :
  exists before after mk taken,
    lit "직업명: Chef" ++ nl ++ lit "She cooks." =
      before ++ (lit "직업명: Chef" ++ nl) ++ after /\
    lit "직업명: Chef" ++ nl = mk ++ taken ++ [line_feed] /\
    title_marker mk /\
    (forall before' rest',
       lit "직업명: Chef" ++ nl ++ lit "She cooks." = before' ++ rest' ->
       length before' < length before ->
       title_at rest' = None) /\
    parseAnalysisText (lit "직업명: Chef" ++ nl ++ lit "She cooks.") None =
    Return {| Analysis.title := trim (lit "Chef");
              Analysis.description := trim (before ++ after) |}.
Proof.
  apply (@matched_title_is_removed
           (lit "직업명: Chef" ++ nl ++ lit "She cooks.")
           (lit "직업명: Chef" ++ nl) (lit "Chef")).
  - apply reason_absent. vm_compute. reflexivity.
  - vm_compute. reflexivity.
Defined.

(** * What a result looks like *)

Lemma interpret_returns response prompt returned :
  interpret response prompt = Return returned ->
  exists candidate rest blob t,
    candidates response = Some (candidate :: rest) /\
    last_image (candidate_parts candidate) blob /\
    last_text (candidate_parts candidate) t /\
    returned = {| image := data_url blob;
                  title := Analysis.title (analysis t prompt);
                  description := Analysis.description (analysis t prompt) |}.
Proof.
  intros H.
  destruct (candidates response) as [[|candidate rest]|] eqn:Hc;
    try (unfold interpret in H; rewrite Hc in H; discriminate H).
  rewrite (@interpret_first response prompt candidate rest Hc) in H.
  rewrite scan_parts_fold in H.
  destruct (fst (fold_left scan_part (candidate_parts candidate)
                   (None, None))) as [u|] eqn:Eu; [|discriminate H].
  destruct (snd (fold_left scan_part (candidate_parts candidate)
                   (None, None))) as [t|] eqn:Et;
    [|cbn [truthy_opt] in H; rewrite andb_false_r in H; discriminate H].
  destruct (@scan_image_found _ u Eu) as (blob & Hi & ->).
  exists candidate, rest, blob, t.
  split; [reflexivity|]. split; [exact Hi|].
  split; [exact (@scan_text_found _ t Et)|].
  cbn [truthy_opt interpolate] in H.
  destruct (truthy (data_url blob) && truthy t); [|discriminate H].
  rewrite parse_total in H. cbn [bind] in H. injection H as <-.
  reflexivity.
Qed.

(** X10.  Every result that [interpret] returns has for image a string that
    starts with "data:", and, when the prompt is not empty, the prompt
    itself for title: what the model wrote has no say in the title then. *)
Theorem returned_result_shape response prompt returned :
  interpret response prompt = Return returned ->
  startsWith (lit "data:") (image returned) = true /\
  (prompt <> [] -> title returned = prompt).
Proof.
  intros H.
  destruct (@interpret_returns response prompt returned H)
    as (candidate & rest & blob & t & _ & _ & _ & ->).
  cbn [image title]. split.
  - replace (lit "data:") with data_scheme by (vm_compute; reflexivity).
    unfold data_url. apply startsWith_here.
  - intros Hp. destruct prompt as [|x p]; [congruence | reflexivity].
Qed.

(** [hat_response] for the prompt "Chef". *)
Lemma returned_result_shape_witness :
  startsWith (lit "data:") (image hat_result) = true /\
  (lit "Chef" <> [] -> title hat_result = lit "Chef").
Proof.
  apply (@returned_result_shape hat_response (lit "Chef") hat_result).
  vm_compute. reflexivity.
Defined.

(** X11.  Resetting after anything gives the page as it was at first: all
    six cells, the loading message among them although [handleResetAll]
    does not set it, since every handler leaves it empty. *)
Theorem reset_restores_initial generateContent type_error_message es :
  App.handle generateContent type_error_message
    (App.run_events generateContent type_error_message es) App.ResetAll =
  App.initial.
Proof.
  destruct (page_settled generateContent type_error_message es)
    as (_ & Hl & _).
  unfold App.handle. cbn. rewrite Hl. reflexivity.
Qed.
